(** * Rockstar plugin: session, ownership detection, presence detection, ticks

    A shallow embedding of [src/plugin.py] (class [RockstarPlugin]) and the
    properties of its session and reconciliation engine.

    Conventions of the embedding.
    - A Python [str] is a list of Unicode code points ([PyStr.str]); the log is
      decoded from UTF-8 before the plugin looks at it, so every offset below
      is an offset in characters, as in the source.
    - The plugin object is a record of its attributes.  The list object behind
      [self.owned_games_cache] lives in a small store, since
      [check_for_new_games] keeps a second reference to it.
    - A method is a computation in the monad [M]: it reads and writes the
      plugin record, emits host notifications and log records, and either
      returns or raises.
    - Collaborators that the plugin only calls (HTTP client, install manager,
      process table, file system) are inputs of the computation. *)

From Stdlib Require Import List String Ascii Bool Arith NArith ZArith Lia.
From Stdlib Require SpecFloat.
Import ListNotations.

Set Implicit Arguments.

(* ------------------------------------------------------------------------- *)
(** ** Python strings *)

Module PyStr.

Definition char := N.
Definition str := list char.

(** A literal of the source. *)
Definition lit (s : string) : str := map N_of_ascii (list_ascii_of_string s).

Definition eq_dec : forall a b : str, {a = b} + {a <> b} := list_eq_dec N.eq_dec.

Definition eqb (a b : str) : bool := if eq_dec a b then true else false.

(** [s.startswith(p)] *)
Fixpoint startswith (p s : str) : bool :=
  match p, s with
  | [], _ => true
  | _ :: _, [] => false
  | c :: p', d :: s' => N.eqb c d && startswith p' s'
  end.

(** [p in s] *)
Fixpoint contains (p s : str) : bool :=
  startswith p s ||
  match s with
  | [] => false
  | _ :: s' => contains p s'
  end.

(** [s[i:j]] for non-negative [i], [j]; a slice past the end is cut short,
    it never raises. *)
Definition slice (i j : nat) (s : str) : str := firstn (j - i) (skipn i s).

(** [str.isspace] on one character: the code points CPython lists as
    white space. *)
Definition isspace (c : char) : bool :=
  ((9 <=? c) && (c <=? 13) || (28 <=? c) && (c <=? 32) ||
   (c =? 133) || (c =? 160) || (c =? 5760) ||
   (8192 <=? c) && (c <=? 8202) ||
   (c =? 8232) || (c =? 8233) || (c =? 8239) || (c =? 8287) || (c =? 12288))%N.

Fixpoint lstrip (s : str) : str :=
  match s with
  | [] => []
  | c :: s' => if isspace c then lstrip s' else s
  end.

Definition rstrip (s : str) : str := rev (lstrip (rev s)).

(** [s.strip()] *)
Definition strip (s : str) : str := rstrip (lstrip s).

(** [x in l] for a list [l] of strings. *)
Definition mem (x : str) (l : list str) : bool := existsb (eqb x) l.

End PyStr.

Definition str := PyStr.str.

(* ------------------------------------------------------------------------- *)
(** ** The host API ([galaxy.api]) as far as the plugin uses it *)

(** [LicenseInfo] is opaque to the plugin, which only copies it from the
    catalog into a [Game]; it is kept as the license type's name. *)
Definition LicenseInfo : Type := string.
Bind Scope string_scope with LicenseInfo.

(** [Game(game_id, game_title, dlcs, license_info)].  The plugin always passes
    [None] for [dlcs], which is left out. *)
Record Game := mkGame {
  game_id : Z;
  game_title : string;
  license_info : LicenseInfo
}.

Inductive LocalGameState := None_ | Installed | Running.

(** [LocalGame(game_id, local_game_state)] *)
Record LocalGame := mkLocalGame {
  local_game_id : Z;
  local_game_state : LocalGameState
}.

Definition Game_eq_dec (a b : Game) : {a = b} + {a <> b}.
Proof. decide equality; [apply string_dec | apply string_dec | apply Z.eq_dec]. Defined.

(** [game in games]: [Game] is a dataclass, compared field by field. *)
Definition game_in (g : Game) (games : list Game) : bool :=
  if in_dec Game_eq_dec g games then true else false.

Inductive LogLevel := LDebug | LInfo | LWarning | LError.

(** What a method lets the outside world see: the notifications it sends to
    the host and the records it writes to the log (level and the constant
    head of the message). *)
Inductive Event :=
| AddGame (g : Game)
| RemoveGame (id : Z)
| UpdateLocalGameStatus (lg : LocalGame)
| Log (lvl : LogLevel) (msg : string).

Inductive Exn := KeyError | InvalidCredentials | OtherError.

Inductive result (A : Type) :=
| Ok (a : A)
| Raise (e : Exn).
Arguments Ok {A} a.
Arguments Raise {A} e.

(* ------------------------------------------------------------------------- *)
(** ** The title catalog ([game_cache.games_cache]) *)

(** One value of the [games_cache] dict: the keys the plugin reads. *)
Record Title := mkTitle {
  rosTitleId : Z;
  friendlyName : string;
  licenseInfo : LicenseInfo
}.

(** The dict itself, in iteration order.  The table is not among the sources
    at hand, so it is a parameter of everything below. *)
Definition Catalog := list (str * Title).

(** [games_cache[title_id]], [None] standing for [KeyError]. *)
Fixpoint lookup (gc : Catalog) (title_id : str) : option Title :=
  match gc with
  | [] => None
  | (key, value) :: gc' => if PyStr.eqb title_id key then Some value else lookup gc' title_id
  end.

(** A dict has each key once. *)
Definition dict_keys_unique (gc : Catalog) : Prop := NoDup (map fst gc).

(** Modelled from the spec: [game_cache.get_game_title_id_from_ros_title_id]
    is not among the sources at hand.  The spec only says that the catalog's
    title identifier and the host-facing identifier are translated into each
    other consistently (sections 4.4 and 6); it is taken to be the reverse
    lookup in the catalog. *)
Fixpoint get_game_title_id_from_ros_title_id (gc : Catalog) (ros_title_id : Z)
  : option str :=
  match gc with
  | [] => None
  | (key, value) :: gc' =>
      if Z.eqb (rosTitleId value) ros_title_id then Some key
      else get_game_title_id_from_ros_title_id gc' ros_title_id
  end.

(* ------------------------------------------------------------------------- *)
(** ** Methods as computations *)

(** A method over an object of type [S]: from the object's state to its new
    state, what the method emitted, and its return value or the exception it
    raised.  The state is kept when an exception is raised: what was mutated
    stays mutated. *)
Definition M (S A : Type) : Type := S -> S * list Event * result A.

Definition ret {S A} (a : A) : M S A := fun st => (st, [], Ok a).

Definition bind {S A B} (m : M S A) (f : A -> M S B) : M S B := fun st =>
  match m st with
  | (st1, ev1, Ok a) =>
      match f a st1 with
      | (st2, ev2, r) => (st2, ev1 ++ ev2, r)
      end
  | (st1, ev1, Raise e) => (st1, ev1, Raise e)
  end.

(** [try: m except Exception: handler] *)
Definition try_except {S A} (m : M S A) (handler : M S A) : M S A := fun st =>
  match m st with
  | (st1, ev1, Ok a) => (st1, ev1, Ok a)
  | (st1, ev1, Raise _) =>
      match handler st1 with
      | (st2, ev2, r) => (st2, ev1 ++ ev2, r)
      end
  end.

Definition raise {S A} (e : Exn) : M S A := fun st => (st, [], Raise e).
Definition lift {S A} (r : result A) : M S A := fun st => (st, [], r).
Definition emit {S} (e : Event) : M S unit := fun st => (st, [e], Ok tt).
Definition get {S} : M S S := fun st => (st, [], Ok st).
Definition modify {S} (f : S -> S) : M S unit := fun st => (f st, [], Ok tt).
Definition log {S} (lvl : LogLevel) (msg : string) : M S unit := emit (Log lvl msg).

Declare Scope method_scope.
Delimit Scope method_scope with method.
Notation "x <- m ;; k" := (bind m (fun x => k))
  (at level 61, m at next level, right associativity) : method_scope.
Notation "m ;; k" := (bind m (fun _ => k))
  (at level 61, right associativity) : method_scope.
Open Scope method_scope.

(** [for x in xs: body(x)] *)
Fixpoint for_each {S A} (xs : list A) (body : A -> M S unit) : M S unit :=
  match xs with
  | [] => ret tt
  | x :: xs' => body x ;; for_each xs' body
  end.

Definition state_of {S A} (o : S * list Event * result A) : S := fst (fst o).
Definition events_of {S A} (o : S * list Event * result A) : list Event := snd (fst o).
Definition result_of {S A} (o : S * list Event * result A) : result A := snd o.

(* ------------------------------------------------------------------------- *)
(** ** Session: [authenticate] *)

Module Session.

Record Cookie := mkCookie { key : string; value : string }.

(** The dict the remote identity call answers with; an answer carries both
    keys the plugin reads. *)
Record User := mkUser { rockstar_id : string; display_name : string }.

(** [AuthenticatedHttpClient], as far as [authenticate] touches it: its
    cookies, whether the lost-authentication callback is set, and how many
    times its [authenticate] was called. *)
Record HttpClient := mkHttpClient {
  cookies : list (string * string);
  auth_lost_callback : bool;
  authenticate_calls : nat
}.

(** The remote side: what the n-th trial identity call of the session
    answers, [None] when it raises. *)
Definition Remote := nat -> option User.

(** [stored_credentials]: [None] or an empty dict is [None] here; otherwise
    the cookies [pickle.loads(bytes.fromhex(...['cookie_jar']))] yields, or
    [None] when that expression raises. *)
Record StoredCredentials := mkStored { cookie_jar : option (list Cookie) }.

Inductive AuthResult :=
| NextStep_web_session
| Authentication (user_id user_name : string).

Definition update_cookies (cs : list (string * string)) : M HttpClient unit :=
  modify (fun c => mkHttpClient (cookies c ++ cs) (auth_lost_callback c) (authenticate_calls c)).

Definition set_auth_lost_callback : M HttpClient unit :=
  modify (fun c => mkHttpClient (cookies c) true (authenticate_calls c)).

(** [await self._http_client.authenticate()] *)
Definition http_authenticate (remote : Remote) : M HttpClient User := fun c =>
  let c' := mkHttpClient (cookies c) (auth_lost_callback c) (S (authenticate_calls c)) in
  match remote (authenticate_calls c) with
  | Some user => (c', [], Ok user)
  | None => (c', [], Raise OtherError)
  end.

Definition authenticate (remote : Remote) (stored_credentials : option StoredCredentials)
  : M HttpClient AuthResult :=
  match stored_credentials with
  | None => ret NextStep_web_session
  | Some stored =>
      try_except
        (log LInfo "INFO: The credentials were successfully obtained." ;;
         cookies <- match cookie_jar stored with
                    | Some cs => ret cs
                    | None => raise OtherError
                    end ;;
         for_each cookies (fun cookie => update_cookies [(key cookie, value cookie)]) ;;
         log LInfo "INFO: The stored credentials were successfully parsed." ;;
         user <- http_authenticate remote ;;
         ret (Authentication (rockstar_id user) (display_name user)))
        (log LWarning "ROCKSTAR_AUTH_WARNING" ;;
         set_auth_lost_callback ;;
         try_except
           (user <- http_authenticate remote ;;
            ret (Authentication (rockstar_id user) (display_name user)))
           (log LError "ROCKSTAR_AUTH_FAILURE" ;;
            log LError "ROCKSTAR_STACK_TRACE" ;;
            raise InvalidCredentials))
  end.

End Session.

(* ------------------------------------------------------------------------- *)
(** ** The plugin object *)

Definition ref := nat.
Definition Handle := string.

Record Plugin := mkPlugin {
  (** the list objects allocated so far, and the next free reference *)
  heap : ref -> list Game;
  next_ref : ref;
  total_games_cache : list Game;
  (** [self.owned_games_cache] is a reference to a list object *)
  owned_games_cache : ref;
  local_games_cache : list LocalGame;
  (** [title_id -> [pid, True]] *)
  running_games_pids : list (str * (Handle * bool));
  checking_for_new_games : bool;
  updating_game_statuses : bool
}.

(** The list [self.owned_games_cache] refers to. *)
Definition owned_games (st : Plugin) : list Game := heap st (owned_games_cache st).

(** Attribute assignments. *)
Definition set_checking_for_new_games (b : bool) (st : Plugin) : Plugin :=
  mkPlugin (heap st) (next_ref st) (total_games_cache st) (owned_games_cache st)
           (local_games_cache st) (running_games_pids st) b (updating_game_statuses st).

Definition set_updating_game_statuses (b : bool) (st : Plugin) : Plugin :=
  mkPlugin (heap st) (next_ref st) (total_games_cache st) (owned_games_cache st)
           (local_games_cache st) (running_games_pids st) (checking_for_new_games st) b.

Definition set_local_games_cache (l : list LocalGame) (st : Plugin) : Plugin :=
  mkPlugin (heap st) (next_ref st) (total_games_cache st) (owned_games_cache st)
           l (running_games_pids st) (checking_for_new_games st) (updating_game_statuses st).

(** [self.owned_games_cache = []]: a new list object; the one referred to
    before is left as it is. *)
Definition rebind_owned_games_cache_to_empty (st : Plugin) : Plugin :=
  mkPlugin (fun r => if Nat.eqb r (next_ref st) then [] else heap st r)
           (S (next_ref st)) (total_games_cache st) (next_ref st)
           (local_games_cache st) (running_games_pids st)
           (checking_for_new_games st) (updating_game_statuses st).

(** [self.owned_games_cache.append(game)]: the list object is changed in
    place, for every reference to it. *)
Definition owned_games_cache_append (g : Game) (st : Plugin) : Plugin :=
  mkPlugin (fun r => if Nat.eqb r (owned_games_cache st) then heap st r ++ [g] else heap st r)
           (next_ref st) (total_games_cache st) (owned_games_cache st)
           (local_games_cache st) (running_games_pids st)
           (checking_for_new_games st) (updating_game_statuses st).

(** Notifications to the host: [Plugin.add_game] and its siblings. *)
Definition add_game (g : Game) : M Plugin unit := emit (AddGame g).
Definition remove_game (id : Z) : M Plugin unit := emit (RemoveGame id).
Definition update_local_game_status (lg : LocalGame) : M Plugin unit :=
  emit (UpdateLocalGameStatus lg).

(** [create_game_from_title_id]: [KeyError] on a title id that is not a key
    of the catalog. *)
Definition create_game_from_title_id (gc : Catalog) (title_id : str) : result Game :=
  match lookup gc title_id with
  | Some value => Ok (mkGame (rosTitleId value) (friendlyName value) (licenseInfo value))
  | None => Raise KeyError
  end.

(** [create_local_game_from_title_id] *)
Definition create_local_game_from_title_id (gc : Catalog) (title_id : str)
           (is_running is_installed : bool) : result LocalGame :=
  match lookup gc title_id with
  | Some value =>
      if is_running then Ok (mkLocalGame (rosTitleId value) Running)
      else if is_installed then Ok (mkLocalGame (rosTitleId value) Installed)
      else Ok (mkLocalGame (rosTitleId value) None_)
  | None => Raise KeyError
  end.

(** [create_total_games_cache] *)
Fixpoint create_total_games_cache_from (gc : Catalog) (title_ids : list str)
         (cache : list Game) : result (list Game) :=
  match title_ids with
  | [] => Ok cache
  | title_id :: rest =>
      match create_game_from_title_id gc title_id with
      | Ok game => create_total_games_cache_from gc rest (cache ++ [game])
      | Raise e => Raise e
      end
  end.

Definition create_total_games_cache (gc : Catalog) : result (list Game) :=
  create_total_games_cache_from gc (map fst gc) [].

(** [__init__]: the first list object is the empty owned-games cache. *)
Definition init (gc : Catalog) : result Plugin :=
  match create_total_games_cache gc with
  | Ok total => Ok (mkPlugin (fun _ => []) 1 total 0 [] [] false false)
  | Raise e => Raise e
  end.

(* ------------------------------------------------------------------------- *)
(** ** Ownership detector: [get_owned_games] *)

Definition launcher_marker : str := PyStr.lit "launcher".
Definition on_branch_marker : str := PyStr.lit "on branch ".
Definition no_branches_marker : str := PyStr.lit "no branches!".

(** The title id of a branch report: [line[65:75].strip()]. *)
Definition title_id_of_line (line : str) : str := PyStr.strip (PyStr.slice 65 75 line).

(** The body of the scan loop up to the test of the stop condition, on the
    locals [checked_games_count] and [owned_title_ids]. *)
Definition scan_line (gc : Catalog) (line : str)
           (checked_games_count : nat) (owned_title_ids : list str)
  : M Plugin (nat * list str) :=
  if negb (PyStr.contains launcher_marker line) && PyStr.contains on_branch_marker line then
    let title_id := title_id_of_line line in
    log LDebug "ROCKSTAR_OWNED_GAME" ;;
    let owned_title_ids := owned_title_ids ++ [title_id] in
    game <- lift (create_game_from_title_id gc title_id) ;;
    st <- get ;;
    (if negb (game_in game (owned_games st)) then
       game' <- lift (create_game_from_title_id gc title_id) ;;
       modify (owned_games_cache_append game')
     else ret tt) ;;
    ret (S checked_games_count, owned_title_ids)
  else if PyStr.contains no_branches_marker line then
    ret (S checked_games_count, owned_title_ids)
  else
    ret (checked_games_count, owned_title_ids).

(** [for line in frb: ...; if checked_games_count == total_games_count: break]
    over the lines as [FileReadBackwards] yields them, last line of the file
    first.  Besides the two locals it returns the lines left unread. *)
Fixpoint scan (gc : Catalog) (total_games_count : nat) (frb : list str)
         (checked_games_count : nat) (owned_title_ids : list str)
  : M Plugin (nat * list str * list str) :=
  match frb with
  | [] => ret (checked_games_count, owned_title_ids, [])
  | line :: frb' =>
      locals <- scan_line gc line checked_games_count owned_title_ids ;;
      if Nat.eqb (fst locals) total_games_count
      then ret (fst locals, snd locals, frb')
      else scan gc total_games_count frb' (fst locals) (snd locals)
  end.

(** [get_owned_games].  [authenticated] is what [is_authenticated()] answers;
    [log_file] is [None] when [os.path.exists(log_file)] is false and the
    file's lines, first line first, otherwise ([USERPROFILE] is taken to be
    set).  The value returned is [None] for the bare [return]. *)
Definition get_owned_games (gc : Catalog) (authenticated : bool)
           (log_file : option (list str)) : M Plugin (option (list Game)) :=
  if negb authenticated then
    for_each gc (fun item => remove_game (rosTitleId (snd item))) ;;
    modify rebind_owned_games_cache_to_empty ;;
    ret None
  else
    log LDebug "ROCKSTAR_LOG_LOCATION" ;;
    let total_games_count := List.length gc in
    match log_file with
    | Some lines =>
        locals <- scan gc total_games_count (rev lines) 0 [] ;;
        let owned_title_ids := snd (fst locals) in
        for_each gc (fun item =>
          if negb (PyStr.mem (fst item) owned_title_ids)
          then remove_game (rosTitleId (snd item))
          else ret tt) ;;
        st <- get ;;
        ret (Some (owned_games st))
    | None =>
        log LWarning "WARNING: The log file could not be found and/or read from. Assuming all games are owned..." ;;
        for_each (map fst gc) (fun key =>
          game <- lift (create_game_from_title_id gc key) ;;
          st <- get ;;
          if negb (game_in game (owned_games st)) then
            game' <- lift (create_game_from_title_id gc key) ;;
            modify (owned_games_cache_append game')
          else ret tt) ;;
        st <- get ;;
        ret (Some (owned_games st))
    end.

(** [check_for_new_games] up to its [await asyncio.sleep(60)].
    [old_games_cache] and [new_games_cache] are references: they are read
    when the loop runs, after [get_owned_games] has changed the lists. *)
Definition check_for_new_games (gc : Catalog) (authenticated : bool)
           (log_file : option (list str)) : M Plugin unit :=
  modify (set_checking_for_new_games true) ;;
  st0 <- get ;;
  let old_games_cache := owned_games_cache st0 in
  get_owned_games gc authenticated log_file ;;
  st1 <- get ;;
  let new_games_cache := owned_games_cache st1 in
  for_each (heap st1 new_games_cache) (fun game =>
    st <- get ;;
    if negb (game_in game (heap st old_games_cache)) then add_game game else ret tt).

(** ... and from the end of the sleep on. *)
Definition check_for_new_games_resume : M Plugin unit :=
  modify (set_checking_for_new_games false).

(* ------------------------------------------------------------------------- *)
(** ** Local presence detector: [get_local_games] *)

(** The two collaborators of the detector: [LocalClient.get_path_to_game]
    (the install manager) and [check_if_process_exists] (the process table). *)
Record Collaborators := mkCollaborators {
  get_path_to_game : str -> option string;
  check_if_process_exists : Handle -> bool
}.

(** [self.running_games_pids[title_id]], [None] when [title_id] is not a key. *)
Fixpoint pids_lookup (pids : list (str * (Handle * bool))) (title_id : str)
  : option (Handle * bool) :=
  match pids with
  | [] => None
  | (key, entry) :: pids' =>
      if PyStr.eqb title_id key then Some entry else pids_lookup pids' title_id
  end.

(** The body of the loop of [get_local_games]: the [LocalGame] appended for
    [game].  A game id the catalog does not carry has no title id; the
    lookups of [games_cache] that follow fail on it. *)
Definition local_game_of (gc : Catalog) (env : Collaborators) (game : Game)
  : M Plugin LocalGame :=
  match get_game_title_id_from_ros_title_id gc (game_id game) with
  | None => raise KeyError
  | Some title_id =>
      st <- get ;;
      match get_path_to_game env title_id with
      | Some _ =>
          if match pids_lookup (running_games_pids st) title_id with
             | Some entry => check_if_process_exists env (fst entry)
             | None => false
             end
          then lift (create_local_game_from_title_id gc title_id true true)
          else lift (create_local_game_from_title_id gc title_id false true)
      | None => lift (create_local_game_from_title_id gc title_id false false)
      end
  end.

Fixpoint local_games_loop (gc : Catalog) (env : Collaborators) (games : list Game)
         (local_games : list LocalGame) : M Plugin (list LocalGame) :=
  match games with
  | [] => ret local_games
  | game :: games' =>
      local_game <- local_game_of gc env game ;;
      local_games_loop gc env games' (local_games ++ [local_game])
  end.

Definition get_local_games (gc : Catalog) (env : Collaborators)
  : M Plugin (list LocalGame) :=
  st <- get ;;
  local_games <- local_games_loop gc env (total_games_cache st) [] ;;
  modify (set_local_games_cache local_games) ;;
  log LDebug "ROCKSTAR_INSTALLED_GAMES" ;;
  ret local_games.

(** [check_game_statuses] up to its [await asyncio.sleep(5)] ... *)
Definition check_game_statuses (gc : Catalog) (env : Collaborators) : M Plugin unit :=
  modify (set_updating_game_statuses true) ;;
  local_games <- get_local_games gc env ;;
  for_each local_games update_local_game_status.

(** ... and from the end of the sleep on. *)
Definition check_game_statuses_resume : M Plugin unit :=
  modify (set_updating_game_statuses false).

(* ------------------------------------------------------------------------- *)
(** ** Ticks and the event loop *)

Inductive Coroutine := CheckForNewGames | CheckGameStatuses.

(** [tick]: the coroutines it hands to [asyncio.create_task], in order. *)
Definition tick : M Plugin (list Coroutine) :=
  st <- get ;;
  first <- (if negb (checking_for_new_games st)
            then log LDebug "Checking for new games..." ;; ret [CheckForNewGames]
            else ret []) ;;
  second <- (if negb (updating_game_statuses st)
             then log LDebug "Checking local game statuses..." ;; ret [CheckGameStatuses]
             else ret []) ;;
  ret (first ++ second).

(** A task of the event loop.  [asyncio.create_task] only registers the
    coroutine: its body starts when the loop next gives it control, which is
    after the synchronous [tick] has returned.  Neither [get_owned_games] nor
    [get_local_games] awaits anything that suspends, so a task runs from its
    start to its [asyncio.sleep], and from the end of the sleep to its end. *)
Inductive Phase :=
| Created      (* registered, body not started *)
| Sleeping     (* suspended in its [asyncio.sleep] *)
| Finished
| Failed.      (* ended by an exception *)

Record Task := mkTask { coroutine : Coroutine; phase : Phase }.

(** What the outside world answers while a task runs. *)
Record World := mkWorld {
  authenticated : bool;
  log_file : option (list str);
  collaborators : Collaborators
}.

Record Loop := mkLoop {
  plugin : Plugin;
  tasks : list Task;
  emitted : list Event
}.

(** What the event loop can do next: the host calls [tick], or the loop
    resumes task number [i], the world answering with [w]. *)
Inductive Action :=
| Tick
| Resume (i : nat) (w : World).

Fixpoint set_phase (i : nat) (p : Phase) (ts : list Task) : list Task :=
  match ts, i with
  | [], _ => []
  | t :: ts', O => mkTask (coroutine t) p :: ts'
  | t :: ts', S i' => t :: set_phase i' p ts'
  end.

Definition run_segment (gc : Catalog) (w : World) (t : Task) : M Plugin unit :=
  match coroutine t, phase t with
  | CheckForNewGames, Created => check_for_new_games gc (authenticated w) (log_file w)
  | CheckForNewGames, Sleeping => check_for_new_games_resume
  | CheckGameStatuses, Created => check_game_statuses gc (collaborators w)
  | CheckGameStatuses, Sleeping => check_game_statuses_resume
  | _, _ => ret tt
  end.

Definition next_phase (p : Phase) (r : result unit) : Phase :=
  match p, r with
  | Created, Ok _ => Sleeping
  | Sleeping, Ok _ => Finished
  | (Created | Sleeping), Raise _ => Failed
  | p, _ => p
  end.

Definition step (gc : Catalog) (l : Loop) (a : Action) : Loop :=
  match a with
  | Tick =>
      match tick (plugin l) with
      | (st, ev, Ok created) =>
          mkLoop st (tasks l ++ map (fun c => mkTask c Created) created) (emitted l ++ ev)
      | (st, ev, Raise _) => mkLoop st (tasks l) (emitted l ++ ev)
      end
  | Resume i w =>
      match nth_error (tasks l) i with
      | Some t =>
          match run_segment gc w t (plugin l) with
          | (st, ev, r) =>
              mkLoop st (set_phase i (next_phase (phase t) r) (tasks l)) (emitted l ++ ev)
          end
      | None => l
      end
  end.

Definition run (gc : Catalog) (l : Loop) (actions : list Action) : Loop :=
  fold_left (step gc) actions l.

(** A task is in flight from its creation to its end. *)
Definition in_flight (c : Coroutine) (t : Task) : bool :=
  match coroutine t, c with
  | CheckForNewGames, CheckForNewGames | CheckGameStatuses, CheckGameStatuses =>
      match phase t with
      | Created | Sleeping => true
      | _ => false
      end
  | _, _ => false
  end.

(** ... and running from the start of its body to its end. *)
Definition started (c : Coroutine) (t : Task) : bool :=
  in_flight c t && match phase t with Sleeping => true | _ => false end.

Definition count_in_flight (c : Coroutine) (l : Loop) : nat :=
  List.length (filter (in_flight c) (tasks l)).

Definition count_started (c : Coroutine) (l : Loop) : nat :=
  List.length (filter (started c) (tasks l)).

Definition no_task_created (l : Loop) : bool :=
  forallb (fun t => match phase t with Created => false | _ => true end) (tasks l).

(** A schedule in which the loop has given every registered task control
    before the host calls [tick] again, as it does when the caller of [tick]
    awaits between two calls. *)
Fixpoint ticks_are_spaced (gc : Catalog) (l : Loop) (actions : list Action) : bool :=
  match actions with
  | [] => true
  | a :: actions' =>
      match a with
      | Tick => no_task_created l
      | Resume _ _ => true
      end && ticks_are_spaced gc (step gc l a) actions'
  end.

(* ------------------------------------------------------------------------- *)
(** ** Session: [pass_login_credentials] *)

Module Login.




End Login.

(* ------------------------------------------------------------------------- *)
(** ** Friends: [get_friends] and [_get_friends] *)

Module Friends.

(** [FriendInfo(user_id, user_name)] *)
Record FriendInfo := mkFriendInfo { user_id : Z; user_name : string }.

(** One element of [rockstarAccounts], and the [rockstarAccountList] of a
    page; an answer carries the keys the plugin reads. *)
Record Account := mkAccount { rockstarId : Z; displayName : string }.
Record Page := mkPage { totalFriends : Z; rockstarAccounts : list Account }.

(** The remote side: what [get_json_from_request_strict] answers for the URL
    with a given [pageIndex]. *)
Definition Remote := Z -> result Page.

(** What the lists built by the two methods hold: the class [FriendInfo]
    itself, or a generator over a list of such values. *)
#[warnings="-register-all"]
Inductive PyValue :=
| FriendInfo_class
| generator (over : list PyValue).

(** The part of the plugin the two methods touch, with what they send out:
    [friends_cache], the friends passed to [add_friend] so far, and the page
    indices requested so far. *)
Record State := mkState {
  friends_cache : list FriendInfo;
  added : list FriendInfo;
  requested : list Z
}.

Definition get_json_from_request_strict (remote : Remote) (pageIndex : Z)
  : M State Page := fun st =>
  (mkState (friends_cache st) (added st) (requested st ++ [pageIndex]), [], remote pageIndex).

Definition friends_cache_append (friend : FriendInfo) (st : State) : State :=
  mkState (friends_cache st ++ [friend]) (added st) (requested st).

Definition add_friend (friend : FriendInfo) : M State unit :=
  modify (fun st => mkState (friends_cache st) (added st ++ [friend]) (requested st)).

(** [for cached_friend in self.friends_cache: if ... == ...: break] leaves by
    [break] exactly when some cached friend has the id of [friend]. *)
Definition is_cached (friend : FriendInfo) (cache : list FriendInfo) : bool :=
  existsb (fun cached_friend => Z.eqb (user_id cached_friend) (user_id friend)) cache.

(** The loop over the accounts of one page, the same in both methods. *)
Fixpoint accounts_loop (friends_list : list Account) (return_list : list PyValue)
  : M State (list PyValue) :=
  match friends_list with
  | [] => ret return_list
  | account :: friends_list' =>
      let friend := mkFriendInfo (rockstarId account) (displayName account) in
      let return_list := return_list ++ [FriendInfo_class] in
      st <- get ;;
      (if is_cached friend (friends_cache st) then ret tt
       else modify (friends_cache_append friend) ;; add_friend friend) ;;
      log LDebug "ROCKSTAR_FRIEND: Found " ;;
      accounts_loop friends_list' return_list
  end.

(** [_get_friends(url)] for the URL of page [pageIndex] *)
Definition _get_friends (remote : Remote) (pageIndex : Z) : M State (list PyValue) :=
  current_page <- get_json_from_request_strict remote pageIndex ;;
  accounts_loop (rockstarAccounts current_page) [].

(** A Python [float] is an IEEE 754 binary64 number: 53 bits of mantissa,
    the infinities at exponent 1024. *)
Definition float := SpecFloat.spec_float.
Definition prec : Z := 53.
Definition emax : Z := 1024.

(** An [int] as the operand of a division: sign, magnitude, exponent 0.  An
    [int] has no bound, so the magnitude may be longer than a mantissa. *)
Definition int_operand (z : Z) : float :=
  match z with
  | Z0 => SpecFloat.S754_zero false
  | Zpos magnitude => SpecFloat.S754_finite false magnitude 0
  | Zneg magnitude => SpecFloat.S754_finite true magnitude 0
  end.

(** [a / b] on two [int]s: the quotient of the two integers, rounded once to
    the nearest float, ties to even.  It raises [ZeroDivisionError] for
    [b = 0] and [OverflowError] when the rounded quotient is beyond the
    largest float. *)
Definition int_true_divide (a b : Z) : result float :=
  if Z.eqb b 0 then Raise OtherError
  else
    match SpecFloat.SFdiv prec emax (int_operand a) (int_operand b) with
    | SpecFloat.S754_infinity _ => Raise OtherError
    | quotient => Ok quotient
    end.

(** The [int] literals [0] and [1] where the source mixes them with a
    [float]: Python makes them [0.0] and [1.0]. *)
Definition float_0 : float := SpecFloat.S754_zero false.
Definition float_1 : float := SpecFloat.SFone prec emax.

Definition float_sub (x y : float) : float := SpecFloat.SFsub prec emax x y.
Definition float_add (x y : float) : float := SpecFloat.SFadd prec emax x y.

(** [x > 0] *)
Definition float_is_positive (x : float) : bool := SpecFloat.SFltb float_0 x.

(** [int(f)]: the float cut off towards zero; [OverflowError] for an
    infinity and [ValueError] for a NaN. *)
Definition int_of_float (f : float) : result Z :=
  match f with
  | SpecFloat.S754_zero _ => Ok 0%Z
  | SpecFloat.S754_finite sign mantissa exponent =>
      let magnitude :=
        match exponent with
        | Z0 => Zpos mantissa
        | Zpos _ => (Zpos mantissa * 2 ^ exponent)%Z
        | Zneg _ => (Zpos mantissa / 2 ^ (- exponent))%Z
        end in
      Ok (if sign then (- magnitude)%Z else magnitude)
  | _ => Raise OtherError
  end.

(** [num_friends / 30 if num_friends % 30 != 0 else (num_friends / 30) - 1],
    in floats as in the source. *)
Definition num_pages_required (num_friends : Z) : result float :=
  if negb (Z.eqb (num_friends mod 30) 0)
  then int_true_divide num_friends 30
  else
    match int_true_divide num_friends 30 with
    | Ok quotient => Ok (float_sub quotient float_1)
    | Raise e => Raise e
    end.

(** [range(start, stop)] *)
Definition range (start stop : Z) : list Z :=
  map (fun k => (start + Z.of_nat k)%Z) (seq 0 (Z.to_nat (stop - start))).

(** The page indices of the second loop of [get_friends]:
    [range(1, int(num_pages_required + 1))] if [num_pages_required > 0], and
    none otherwise. *)
Definition further_pages (num_pages_required : float) : result (list Z) :=
  if float_is_positive num_pages_required
  then
    match int_of_float (float_add num_pages_required float_1) with
    | Ok stop => Ok (range 1 stop)
    | Raise e => Raise e
    end
  else Ok [].

Fixpoint further_pages_loop (remote : Remote) (pages : list Z) (return_list : list PyValue)
  : M State (list PyValue) :=
  match pages with
  | [] => ret return_list
  | i :: pages' =>
      friends <- _get_friends remote i ;;
      further_pages_loop remote pages' (return_list ++ [generator friends])
  end.

(** [get_friends].  The page count is computed, and can raise, before the
    accounts of the first page are looked at; the range of the second loop
    is computed after them. *)
Definition get_friends (remote : Remote) : M State (list PyValue) :=
  current_page <- get_json_from_request_strict remote 0 ;;
  log LDebug "ROCKSTAR_FRIENDS_REQUEST: " ;;
  let num_friends := totalFriends current_page in
  num_pages_required <- lift (num_pages_required num_friends) ;;
  let friends_list := rockstarAccounts current_page in
  return_list <- accounts_loop friends_list [] ;;
  pages <- lift (further_pages num_pages_required) ;;
  further_pages_loop remote pages return_list.

End Friends.

(* ------------------------------------------------------------------------- *)
(** ** Host requests: [launch_game] *)

Definition set_running_games_pids (pids : list (str * (Handle * bool))) (st : Plugin)
  : Plugin :=
  mkPlugin (heap st) (next_ref st) (total_games_cache st) (owned_games_cache st)
           (local_games_cache st) pids
           (checking_for_new_games st) (updating_game_statuses st).

(** [self.running_games_pids[title_id] = entry] *)
Fixpoint pids_set (pids : list (str * (Handle * bool))) (title_id : str)
         (entry : Handle * bool) : list (str * (Handle * bool)) :=
  match pids with
  | [] => [(title_id, entry)]
  | (key, old) :: pids' =>
      if PyStr.eqb title_id key then (key, entry) :: pids'
      else (key, old) :: pids_set pids' title_id entry
  end.

(** [launch_game(game_id)].  [title_id] is what
    [get_game_title_id_from_ros_title_id(game_id)] answers and [launched]
    what [launch_game_from_title_id(title_id)] answers: a process id, ["-1"],
    or an exception. *)
Definition launch_game (game_id : Z) (title_id : str) (launched : result Handle)
  : M Plugin unit :=
  pid <- lift launched ;;
  modify (fun st =>
    set_running_games_pids (pids_set (running_games_pids st) title_id (pid, true)) st) ;;
  log LDebug "ROCKSTAR_PIDS: " ;;
  st <- get ;;
  match pids_lookup (running_games_pids st) title_id with
  | Some entry =>
      if negb (String.eqb (fst entry) "-1")
      then update_local_game_status (mkLocalGame game_id Running)
      else ret tt
  | None => raise KeyError
  end.

(* ------------------------------------------------------------------------- *)
(** ** Vocabulary of the properties *)

Definition all_space (s : str) : Prop := Forall (fun c => PyStr.isspace c = true) s.

Definition no_leading_space (s : str) : Prop :=
  match s with
  | [] => True
  | c :: _ => PyStr.isspace c = false
  end.

Definition no_trailing_space (s : str) : Prop := no_leading_space (rev s).

(** A line the scan counts: a branch report or a "no branches!" line. *)
Definition is_evidence (line : str) : bool :=
  negb (PyStr.contains launcher_marker line) && PyStr.contains on_branch_marker line
  || PyStr.contains no_branches_marker line.

Definition count_evidence (lines : list str) : nat :=
  List.length (filter is_evidence lines).

(** The distinct titles the counted lines among [lines] are about, the title
    of a line being what its window at offset 65 holds. *)
Definition resolved_titles (lines : list str) : list str :=
  nodup PyStr.eq_dec (map title_id_of_line (filter is_evidence lines)).

(** The lines the scan has read when it leaves [rest] unread. *)
Definition scanned_lines (frb rest : list str) : list str :=
  firstn (List.length frb - List.length rest) frb.

(** "The scan stops exactly when the number of distinct titles resolved
    reaches the catalog size": it leaves lines unread only when that many
    titles are resolved, and it does not read on once they are. *)
Definition stops_when_all_titles_resolved (gc : Catalog) (lines : list str) (st : Plugin)
  : Prop :=
  forall c ids rest,
    result_of (scan gc (List.length gc) (rev lines) 0 [] st) = Ok (c, ids, rest) ->
    let scanned := scanned_lines (rev lines) rest in
    (rest <> [] -> List.length (resolved_titles scanned) = List.length gc) /\
    (forall m, 0 < m < List.length scanned ->
               List.length (resolved_titles (firstn m scanned)) <> List.length gc).

(** [g] is the [Game] of a key of the catalog. *)
Definition catalog_game (gc : Catalog) (g : Game) : Prop :=
  exists key, In key (map fst gc) /\ create_game_from_title_id gc key = Ok g.

(** The owned-games cache holds games of the catalog only. *)
Definition owned_within_catalog (gc : Catalog) (st : Plugin) : Prop :=
  forall g, In g (owned_games st) -> catalog_game gc g.

(** A method keeps a property of the object, whether it returns or raises. *)
Definition preserves {S A} (P : S -> Prop) (m : M S A) : Prop :=
  forall st, P st -> P (state_of (m st)).

(** Everything a method emits satisfies [Q], whether it returns or raises. *)
Definition emits_only {S A} (Q : Event -> Prop) (m : M S A) : Prop :=
  forall st, Forall Q (events_of (m st)).

(** An event other than a "game added" notification. *)
Definition not_game_added (e : Event) : Prop :=
  match e with
  | AddGame _ => False
  | _ => True
  end.

(** A property of the plugin that no assignment made by the two refresh
    passes breaks. *)
Record stable (gc : Catalog) (P : Plugin -> Prop) : Prop := mkStable {
  stable_append : forall g, catalog_game gc g ->
                  forall st, P st -> P (owned_games_cache_append g st);
  stable_rebind : forall st, P st -> P (rebind_owned_games_cache_to_empty st);
  stable_checking : forall b st, P st -> P (set_checking_for_new_games b st);
  stable_updating : forall b st, P st -> P (set_updating_game_statuses b st);
  stable_local : forall l st, P st -> P (set_local_games_cache l st)
}.

(** The "local state changed" notifications among [evs]. *)
Definition local_state_changes (evs : list Event) : list LocalGame :=
  flat_map (fun e => match e with UpdateLocalGameStatus lg => [lg] | _ => [] end) evs.

(** The [Game] made from a value of the catalog. *)
Definition game_of_title (value : Title) : Game :=
  mkGame (rosTitleId value) (friendlyName value) (licenseInfo value).

(** The host-facing ids of the catalog are pairwise different. *)
Definition ros_title_ids_unique (gc : Catalog) : Prop :=
  NoDup (map (fun item => rosTitleId (snd item)) gc).

(** The presence of a title as section 4.3 of the spec words it: no install
    path, not installed; a path and a tracked process entry whose handle the
    process table reports alive, running; a path otherwise, installed. *)
Definition spec_presence_state (env : Collaborators)
           (pids : list (str * (Handle * bool))) (title_id : str) : LocalGameState :=
  match get_path_to_game env title_id with
  | None => None_
  | Some _ =>
      match pids_lookup pids title_id with
      | Some (handle, _) =>
          if check_if_process_exists env handle then Running else Installed
      | None => Installed
      end
  end.

(** The presence records of the whole catalog, in its order. *)
Definition spec_local_games (gc : Catalog) (env : Collaborators)
           (pids : list (str * (Handle * bool))) : list LocalGame :=
  map (fun item => mkLocalGame (rosTitleId (snd item))
                               (spec_presence_state env pids (fst item))) gc.

(** "Running the pass twice in a row with identical answers produces no
    notification on the second run." *)
Definition second_run_is_silent (gc : Catalog) (env : Collaborators) (st : Plugin) : Prop :=
  local_state_changes
    (events_of (check_game_statuses gc env (state_of (check_game_statuses gc env st)))) = [].

(** The "in progress" flag of a pass. *)
Definition in_progress (c : Coroutine) (st : Plugin) : bool :=
  match c with
  | CheckForNewGames => checking_for_new_games st
  | CheckGameStatuses => updating_game_statuses st
  end.

(** What the in-progress flags are there to keep: of each pass at most one
    task is in flight, and none has started and not ended while its flag is
    down. *)
Definition passes_guarded (l : Loop) : Prop :=
  forall c, count_in_flight c l <= 1 /\
            (in_progress c (plugin l) = false -> count_started c l = 0).

(** An ownership-refresh pass has ended by an exception or otherwise left its
    flag up with no task of it in flight. *)
Definition ownership_refresh_stuck (l : Loop) : Prop :=
  checking_for_new_games (plugin l) = true /\ count_in_flight CheckForNewGames l = 0.

(** The state of the loop when the plugin has just been created. *)
Definition start (st : Plugin) : Loop := mkLoop st [] [].

(** *** Ownership detector, continued *)

(** A line the scan takes for the branch report of a title. *)
Definition is_branch_report (line : str) : bool :=
  negb (PyStr.contains launcher_marker line) && PyStr.contains on_branch_marker line.



(** The owned-games cache holds no game twice. *)
Definition owned_games_distinct (st : Plugin) : Prop := NoDup (owned_games st).


(** The host-facing ids of the catalog titles that are not among [ids]. *)
Definition ids_not_among (gc : Catalog) (ids : list str) : list Z :=
  map (fun item : str * Title => rosTitleId (snd item))
      (filter (fun item : str * Title => negb (PyStr.mem (fst item) ids)) gc).

(** *** Friends *)

(** The friends a page adds to a cache: its accounts in order, without those
    whose id the cache, or an earlier account of the page, already has. *)
Fixpoint fresh_friends (cache : list Friends.FriendInfo) (accounts : list Friends.Account)
  : list Friends.FriendInfo :=
  match accounts with
  | [] => []
  | account :: accounts' =>
      let friend := Friends.mkFriendInfo (Friends.rockstarId account)
                                         (Friends.displayName account) in
      if Friends.is_cached friend cache then fresh_friends cache accounts'
      else friend :: fresh_friends (cache ++ [friend]) accounts'
  end.

Definition friend_ids (cache : list Friends.FriendInfo) : list Z :=
  map Friends.user_id cache.

(** Every account of the page the remote side answers for index [i] has its
    id in the cache. *)
Definition page_is_cached (remote : Friends.Remote) (i : Z)
           (cache : list Friends.FriendInfo) : Prop :=
  forall page account,
    remote i = Ok page -> In account (Friends.rockstarAccounts page) ->
    In (Friends.rockstarId account) (friend_ids cache).

(** From [st] to [st'] the cache has only grown, and [add_friend] was called
    for what it grew by, in the same order. *)
Definition cache_grew_by_added (st st' : Friends.State) : Prop :=
  exists news,
    Friends.friends_cache st' = Friends.friends_cache st ++ news /\
    Friends.added st' = Friends.added st ++ news.

(** A generator over class objects only. *)
Definition generator_of_classes (v : Friends.PyValue) : Prop :=
  exists n, v = Friends.generator (repeat Friends.FriendInfo_class n).

(** The page count the float arithmetic of [get_friends] is meant to give. *)
Definition pages_of (num_friends : Z) : Z := (num_friends + 29) / 30.

(** The check of the page arithmetic against [pages_of] at one count: the
    division returns, and the second loop is over [range(1, pages_of)]. *)
Definition further_pages_agree (num_friends : Z) : bool :=
  match Friends.num_pages_required num_friends with
  | Ok required =>
      if Friends.float_is_positive required
      then
        match Friends.int_of_float (Friends.float_add required Friends.float_1) with
        | Ok stop => Z.eqb stop (pages_of num_friends)
        | Raise _ => false
        end
      else Z.leb (pages_of num_friends) 1
  | Raise _ => false
  end.

(** [f] holds at [count] integers from [start] on. *)
Fixpoint all_from (start : Z) (count : nat) (f : Z -> bool) : bool :=
  match count with
  | O => true
  | S count' => f start && all_from (start + 1) count' f
  end.

(** *** Presence and launches *)

(** What the presence pass after a launch of [title_id] with process id
    [pid] reports for the title of key [key]. *)
Definition presence_after_launch (env : Collaborators)
           (pids : list (str * (Handle * bool))) (title_id : str) (pid : Handle)
           (key : str) : LocalGameState :=
  if PyStr.eqb key title_id then
    match get_path_to_game env title_id with
    | None => None_
    | Some _ => if check_if_process_exists env pid then Running else Installed
    end
  else spec_presence_state env pids key.

(** A catalog in which two titles have the same host-facing id, and the
    plugin over it, just created. *)
Definition same_id_twice : Catalog :=
  [ (PyStr.lit "gta5", mkTitle 11 "Grand Theft Auto V" "SinglePurchase");
    (PyStr.lit "gtao", mkTitle 11 "Grand Theft Auto Online" "SinglePurchase") ].

Definition plugin_of_same_id_twice : Plugin :=
  mkPlugin (fun _ => []) 1
           [mkGame 11 "Grand Theft Auto V" "SinglePurchase";
            mkGame 11 "Grand Theft Auto Online" "SinglePurchase"]
           0 [] [] false false.

(** gta5 is installed and every process is alive. *)
Definition gta5_installed_all_alive : Collaborators :=
  mkCollaborators
    (fun title_id => if PyStr.eqb title_id (PyStr.lit "gta5")
                     then Some "C:\\Games\\Grand Theft Auto V"%string else None)
    (fun _ => true).

(** A remote side with 31 friends announced, two accounts on the first page
    and two on the second, one of them on both. *)
Definition two_pages : Friends.Remote :=
  fun i =>
    if Z.eqb i 0 then
      Ok (Friends.mkPage 31 [Friends.mkAccount 101 "niko"; Friends.mkAccount 102 "roman"])
    else if Z.eqb i 1 then
      Ok (Friends.mkPage 31 [Friends.mkAccount 102 "roman"; Friends.mkAccount 103 "brucie"])
    else Raise OtherError.

Definition no_friends_yet : Friends.State := Friends.mkState [] [] [].

(** *** Sample data *)

(** A remote side whose first identity call fails and whose second succeeds. *)
Definition expired_then_renewed : Session.Remote :=
  fun n => match n with
           | 1 => Some (Session.mkUser "12345" "niko")
           | _ => None
           end.

Definition liberty_city_line : str :=
  PyStr.lit "[2019-11-23 10:15:00.123] [DISPLAY] [Main ] [TitleBranch] title   LIBERTYCY: on branch default".

(** A catalog that has the title of [liberty_city_line]. *)
Definition liberty_city_catalog : Catalog :=
  [ (PyStr.lit "LIBERTYCY",
     mkTitle 2 "Grand Theft Auto: Episodes from Liberty City" "SinglePurchase") ].

Definition gta5_line : str :=
  PyStr.lit "[2019-11-23 10:15:00.123] [DISPLAY] [Main ] [TitleBranch] title        gta5: on branch default".

Definition rdr2_line : str :=
  PyStr.lit "[2019-11-23 10:15:00.123] [DISPLAY] [Main ] [TitleBranch] title        rdr2: on branch default".

Definition gta5_no_branches_line : str :=
  PyStr.lit "[2019-11-23 10:15:00.123] [DISPLAY] [Main ] [TitleBranch] title        gta5: no branches!".

Definition two_titles : Catalog :=
  [ (PyStr.lit "gta5", mkTitle 11 "Grand Theft Auto V" "SinglePurchase");
    (PyStr.lit "rdr2", mkTitle 13 "Red Dead Redemption 2" "SinglePurchase") ].

Definition gta5_game : Game := mkGame 11 "Grand Theft Auto V" "SinglePurchase".
Definition rdr2_game : Game := mkGame 13 "Red Dead Redemption 2" "SinglePurchase".

(** gta5 is installed, rdr2 is not, and no process is alive. *)
Definition gta5_installed_nothing_alive : Collaborators :=
  mkCollaborators
    (fun title_id => if PyStr.eqb title_id (PyStr.lit "gta5")
                     then Some "C:\\Games\\Grand Theft Auto V"%string else None)
    (fun _ => false).

(** A world in which the session is authenticated and the log reports both
    titles on a branch. *)
Definition both_owned : World :=
  mkWorld true (Some [gta5_line; rdr2_line]) gta5_installed_nothing_alive.

(** A world in which the log reports a title the catalog does not have. *)
Definition unknown_title_reported : World :=
  mkWorld true (Some [liberty_city_line]) gta5_installed_nothing_alive.

(** The plugin over [two_titles], just created. *)
Definition fresh_plugin : Plugin :=
  mkPlugin (fun _ => []) 1 [gta5_game; rdr2_game] 0 [] [] false false.

(** ... and after gta5 was launched as process 4242. *)
Definition plugin_tracking_gta5 : Plugin :=
  mkPlugin (fun _ => []) 1 [gta5_game; rdr2_game] 0 []
           [(PyStr.lit "gta5", ("4242"%string, true))] false false.

(* ========================================================================= *)
(** * Properties *)

(* ------------------------------------------------------------------------- *)
(** ** Strings *)

Section StripFacts.

Lemma lstrip_split (s : str) :
  exists l, s = l ++ PyStr.lstrip s /\ all_space l /\ no_leading_space (PyStr.lstrip s).
Proof.
  induction s as [|c s IH]; simpl.
  - exists []. repeat split; constructor.
  - destruct (PyStr.isspace c) eqn:Hc.
    + destruct IH as (l & Hs & Hl & Hn).
      exists (c :: l). repeat split; trivial.
      * simpl. now rewrite <- Hs.
      * now constructor.
    + exists []. repeat split; [constructor | exact Hc].
Qed.

Lemma rstrip_split (s : str) :
  exists r, s = PyStr.rstrip s ++ r /\ all_space r /\ no_trailing_space (PyStr.rstrip s).
Proof.
  unfold PyStr.rstrip, no_trailing_space.
  destruct (lstrip_split (rev s)) as (l & Hs & Hl & Hn).
  exists (rev l). repeat split.
  - rewrite <- rev_app_distr, <- Hs. now rewrite rev_involutive.
  - unfold all_space in *. rewrite Forall_forall in *. intros c Hc.
    apply Hl. now apply in_rev.
  - now rewrite rev_involutive.
Qed.

Lemma no_leading_space_prefix (s t r : str) :
  s = t ++ r -> no_leading_space s -> no_leading_space t.
Proof. intros ->. destruct t; simpl; trivial. Qed.

(** [strip] removes white space at both ends and nothing else. *)
Lemma strip_split (s : str) :
  exists l r, s = l ++ PyStr.strip s ++ r /\ all_space l /\ all_space r /\
              no_leading_space (PyStr.strip s) /\ no_trailing_space (PyStr.strip s).
Proof.
  unfold PyStr.strip.
  destruct (lstrip_split s) as (l & Hs & Hl & Hn).
  destruct (rstrip_split (PyStr.lstrip s)) as (r & Hr & Hrs & Hrn).
  exists l, r. repeat split; trivial.
  - now rewrite <- Hr.
  - eapply no_leading_space_prefix; eauto.
Qed.

Lemma slice_at_offset (pre s : str) (i j : nat) :
  List.length pre = i -> PyStr.slice i j (pre ++ s) = firstn (j - i) s.
Proof.
  intros <-. unfold PyStr.slice.
  rewrite skipn_app, skipn_all, Nat.sub_diag. reflexivity.
Qed.

End StripFacts.

(* ------------------------------------------------------------------------- *)
(** ** Ownership detector: the title id of a branch report *)

(** C5.  On a line that contains "on branch " and does not contain
    "launcher", the scan records as title id the window of 10 characters at
    offset 65 with the white space at both ends removed: it appends that id to
    [owned_title_ids] and counts the line, or fails with [KeyError] when the
    id is not a key of the catalog.  When the characters 65 to 75 of the line,
    counted from 1, are "  LIBERTYCY", the id is "LIBERTYCY". *)
Theorem title_id_is_trimmed_window
        (gc : Catalog) (line : str) (checked : nat) (ids : list str) (st : Plugin) :
  PyStr.contains on_branch_marker line = true ->
  PyStr.contains launcher_marker line = false ->
  let window := firstn 10 (skipn 65 line) in
  exists title_id : str,
    (exists l r, window = l ++ title_id ++ r /\ all_space l /\ all_space r /\
                 no_leading_space title_id /\ no_trailing_space title_id) /\
    match result_of (scan_line gc line checked ids st) with
    | Ok locals => locals = (S checked, ids ++ [title_id])
    | Raise e => e = KeyError /\ lookup gc title_id = None
    end /\
    (forall pre post,
        line = pre ++ PyStr.lit "  LIBERTYCY" ++ post -> List.length pre = 64 ->
        title_id = PyStr.lit "LIBERTYCY").
Proof.
  intros Hb Hl window. exists (title_id_of_line line). split; [|split].
  - apply (strip_split (PyStr.slice 65 75 line)).
  - unfold scan_line. rewrite Hb, Hl. cbn [negb andb].
    unfold bind, log, emit, lift, get, modify, ret, result_of, create_game_from_title_id.
    destruct (lookup gc (title_id_of_line line)) as [value|] eqn:Hk; cbn.
    + destruct (game_in _ _); reflexivity.
    + now split.
  - intros pre post -> Hlen. unfold title_id_of_line.
    replace (pre ++ PyStr.lit "  LIBERTYCY" ++ post)
      with ((pre ++ [32%N]) ++ PyStr.lit " LIBERTYCY" ++ post)
      by (rewrite <- app_assoc; reflexivity).
    rewrite slice_at_offset by (rewrite length_app; simpl; lia).
    reflexivity.
Qed.

Lemma title_id_is_trimmed_window_witness :
  exists title_id : str,
    (exists l r, firstn 10 (skipn 65 liberty_city_line) = l ++ title_id ++ r /\
                 all_space l /\ all_space r /\
                 no_leading_space title_id /\ no_trailing_space title_id) /\
    match result_of (scan_line liberty_city_catalog liberty_city_line 0 []
                               (mkPlugin (fun _ => []) 1 [] 0 [] [] false false)) with
    | Ok locals => locals = (1, [] ++ [title_id])
    | Raise e => e = KeyError /\ lookup liberty_city_catalog title_id = None
    end /\
    (forall pre post,
        liberty_city_line = pre ++ PyStr.lit "  LIBERTYCY" ++ post -> List.length pre = 64 ->
        title_id = PyStr.lit "LIBERTYCY").
Proof.
  apply (@title_id_is_trimmed_window liberty_city_catalog liberty_city_line 0 []
           (mkPlugin (fun _ => []) 1 [] 0 [] [] false false)); reflexivity.
Defined.

(** The scenario of the spec, computed. *)
Example liberty_city_title_id :
  title_id_of_line liberty_city_line = PyStr.lit "LIBERTYCY" /\
  result_of (scan_line liberty_city_catalog liberty_city_line 0 []
                       (mkPlugin (fun _ => []) 1 [] 0 [] [] false false))
  = Ok (1, [PyStr.lit "LIBERTYCY"]).
Proof. split; reflexivity. Qed.

(* ------------------------------------------------------------------------- *)
(** ** Reasoning about methods *)

Section MethodFacts.

Context {S : Type}.

Lemma bind_ok_inv {A B} (m : M S A) (f : A -> M S B) (st : S) (b : B) :
  result_of (bind m f st) = Ok b ->
  exists a, result_of (m st) = Ok a /\ result_of (f a (state_of (m st))) = Ok b.
Proof.
  unfold bind, result_of, state_of.
  destruct (m st) as [[st1 ev1] [a|e]]; simpl; [|discriminate].
  destruct (f a st1) as [[st2 ev2] r] eqn:Hf; simpl. intros ->.
  exists a. now rewrite Hf.
Qed.

Lemma bind_run {A B} (m : M S A) (f : A -> M S B) (st st1 : S) ev1 (a : A) :
  m st = (st1, ev1, Ok a) ->
  bind m f st = (state_of (f a st1), ev1 ++ events_of (f a st1), result_of (f a st1)).
Proof.
  intros H. unfold bind. rewrite H. now destruct (f a st1) as [[? ?] ?].
Qed.

Lemma bind_raise {A B} (m : M S A) (f : A -> M S B) (st st1 : S) ev1 e :
  m st = (st1, ev1, Raise e) -> bind m f st = (st1, ev1, Raise e).
Proof. intros H. unfold bind. now rewrite H. Qed.

Variable P : S -> Prop.

Lemma preserves_ret {A} (a : A) : preserves P (ret a).
Proof. now intros st. Qed.

Lemma preserves_raise {A} (e : Exn) : preserves P (@raise S A e).
Proof. now intros st. Qed.

Lemma preserves_lift {A} (r : result A) : preserves P (lift r).
Proof. now intros st. Qed.

Lemma preserves_emit (e : Event) : preserves P (emit e).
Proof. now intros st. Qed.

Lemma preserves_log lvl msg : preserves P (log lvl msg).
Proof. now intros st. Qed.

Lemma preserves_get : preserves P get.
Proof. now intros st. Qed.

Lemma preserves_modify (f : S -> S) :
  (forall st, P st -> P (f st)) -> preserves P (modify f).
Proof. intros H st. apply H. Qed.

Lemma preserves_bind {A B} (m : M S A) (f : A -> M S B) :
  preserves P m -> (forall a, preserves P (f a)) -> preserves P (bind m f).
Proof.
  intros Hm Hf st HP. unfold bind, state_of.
  specialize (Hm st HP). unfold state_of in Hm.
  destruct (m st) as [[st1 ev1] [a|e]]; simpl in *; trivial.
  specialize (Hf a st1 Hm). unfold state_of in Hf.
  now destruct (f a st1) as [[st2 ev2] r].
Qed.

Lemma preserves_for_each {A} (xs : list A) (body : A -> M S unit) :
  (forall x, In x xs -> preserves P (body x)) -> preserves P (for_each xs body).
Proof.
  induction xs as [|x xs IH]; intros H; simpl.
  - apply preserves_ret.
  - apply preserves_bind.
    + apply H. now left.
    + intros _. apply IH. intros y Hy. apply H. now right.
Qed.

Lemma preserves_if {A} (b : bool) (m1 m2 : M S A) :
  preserves P m1 -> preserves P m2 -> preserves P (if b then m1 else m2).
Proof. now destruct b. Qed.

End MethodFacts.

(** A loop whose body only emits leaves the object as it is and returns. *)
Lemma for_each_emit {S A} (xs : list A) (f : A -> Event) (st : S) :
  for_each xs (fun x => emit (f x)) st = (st, map f xs, Ok tt).
Proof.
  induction xs as [|x xs IH]; simpl; [reflexivity|].
  unfold bind at 1. unfold emit at 1. now rewrite IH.
Qed.

(* ------------------------------------------------------------------------- *)
(** ** Session *)

Module SessionFacts.
Import Session.

Lemma install_cookies (jar : list Cookie) (c : HttpClient) :
  exists cs,
    for_each jar (fun cookie => update_cookies [(key cookie, value cookie)]) c
    = (mkHttpClient cs (auth_lost_callback c) (authenticate_calls c), [], Ok tt).
Proof.
  revert c. induction jar as [|cookie jar IH]; intros c; simpl.
  - exists (cookies c). now destruct c.
  - unfold bind at 1. unfold update_cookies at 1, modify at 1.
    destruct (IH (mkHttpClient (cookies c ++ [(key cookie, value cookie)])
                               (auth_lost_callback c) (authenticate_calls c)))
      as (cs & ->). simpl. now exists cs.
Qed.

(** C4.  With stored credentials whose cookies can be read, when the first
    trial identity call fails: if the second call succeeds, [authenticate]
    returns the [Authentication] of the user it answers; if the second call
    fails too, [authenticate] raises [InvalidCredentials].  In both cases
    the identity call has been made exactly twice. *)
Theorem authenticate_retries_once
        (remote : Remote) (jar : list Cookie) (c : HttpClient) :
  remote (authenticate_calls c) = None ->
  let outcome := authenticate remote (Some (mkStored (Some jar))) c in
  match remote (Datatypes.S (authenticate_calls c)) with
  | Some user =>
      result_of outcome = Ok (Authentication (rockstar_id user) (display_name user))
  | None => result_of outcome = Raise InvalidCredentials
  end /\
  authenticate_calls (state_of outcome) = authenticate_calls c + 2.
Proof.
  intros Hfirst outcome. subst outcome.
  destruct (install_cookies jar c) as (cs & Hcs).
  unfold authenticate, try_except, bind, log, emit, ret, raise. cbn [cookie_jar].
  rewrite Hcs.
  unfold http_authenticate, set_auth_lost_callback, modify.
  cbn [authenticate_calls cookies auth_lost_callback]. rewrite Hfirst.
  cbn [authenticate_calls cookies auth_lost_callback].
  destruct (remote (Datatypes.S (authenticate_calls c))) as [user|];
    cbn; split; trivial; lia.
Qed.

Lemma authenticate_retries_once_witness :
  result_of (authenticate expired_then_renewed (Some (mkStored (Some [mkCookie "TS01" "ab"])))
                          (mkHttpClient [] false 0))
  = Ok (Authentication "12345" "niko") /\
  authenticate_calls
    (state_of (authenticate expired_then_renewed (Some (mkStored (Some [mkCookie "TS01" "ab"])))
                            (mkHttpClient [] false 0))) = 2.
Proof.
  apply (@authenticate_retries_once expired_then_renewed [mkCookie "TS01" "ab"]
           (mkHttpClient [] false 0)).
  reflexivity.
Defined.

End SessionFacts.

(* ------------------------------------------------------------------------- *)
(** ** Ownership detector: the scan *)

Lemma eqb_eq (a b : str) : PyStr.eqb a b = true <-> a = b.
Proof. unfold PyStr.eqb. destruct (PyStr.eq_dec a b); split; congruence. Qed.

Lemma eqb_refl (a : str) : PyStr.eqb a a = true.
Proof. now apply eqb_eq. Qed.

Lemma lookup_in_keys (gc : Catalog) (k : str) (v : Title) :
  lookup gc k = Some v -> In k (map fst gc).
Proof.
  induction gc as [|[key value] gc IH]; simpl; [discriminate|].
  destruct (PyStr.eqb k key) eqn:E.
  - apply eqb_eq in E. now left.
  - intros H. right. now apply IH.
Qed.

Lemma lookup_of_key (gc : Catalog) (k : str) :
  In k (map fst gc) -> exists v, lookup gc k = Some v.
Proof.
  induction gc as [|[key value] gc IH]; simpl; [contradiction|].
  intros [->|H].
  - rewrite eqb_refl. now exists value.
  - destruct (PyStr.eqb k key); [now exists value | now apply IH].
Qed.

Lemma lookup_unique (gc : Catalog) (k : str) (v : Title) :
  dict_keys_unique gc -> In (k, v) gc -> lookup gc k = Some v.
Proof.
  unfold dict_keys_unique.
  induction gc as [|[key value] gc IH]; cbn; [contradiction|].
  intros Hnd [H|H].
  - injection H as -> ->. now rewrite eqb_refl.
  - inversion Hnd as [|? ? Hnotin Hnd']; subst.
    destruct (PyStr.eqb k key) eqn:E.
    + apply eqb_eq in E. subst. exfalso. apply Hnotin.
      apply in_map_iff. now exists (key, v).
    + now apply IH.
Qed.

Lemma lookup_in_items (gc : Catalog) (k : str) (v : Title) :
  lookup gc k = Some v -> In (k, v) gc.
Proof.
  induction gc as [|[key value] gc IH]; simpl; [discriminate|].
  destruct (PyStr.eqb k key) eqn:E.
  - apply eqb_eq in E. intros [= ->]. left. now subst.
  - intros H. right. now apply IH.
Qed.

Lemma create_game_is_catalog_game (gc : Catalog) (k : str) (g : Game) :
  create_game_from_title_id gc k = Ok g -> catalog_game gc g.
Proof.
  intros H. exists k. split; trivial.
  unfold create_game_from_title_id in H.
  destruct (lookup gc k) eqn:E; [|discriminate].
  eapply lookup_in_keys; eauto.
Qed.

Lemma scan_line_count gc line c ids st locals :
  result_of (scan_line gc line c ids st) = Ok locals ->
  fst locals = c + (if is_evidence line then 1 else 0).
Proof.
  unfold scan_line, is_evidence.
  destruct (negb (PyStr.contains launcher_marker line) &&
            PyStr.contains on_branch_marker line); cbn [orb].
  - unfold bind, log, emit, lift, get, modify, ret, result_of.
    destruct (create_game_from_title_id gc (title_id_of_line line)); cbn; [|discriminate].
    destruct (game_in _ _); cbn; intros [= <-]; cbn; lia.
  - destruct (PyStr.contains no_branches_marker line); cbn; intros [= <-]; cbn; lia.
Qed.

Lemma count_evidence_cons line lines :
  count_evidence (line :: lines)
  = (if is_evidence line then 1 else 0) + count_evidence lines.
Proof. unfold count_evidence. simpl. now destruct (is_evidence line). Qed.

(** The scan, from any value of its counter: it reads a prefix of the lines,
    counts the evidence lines in it, leaves lines unread only when the counter
    has reached the total, and never reads past a line at which it has. *)
Lemma scan_reads_prefix gc total frb :
  forall c0 ids0 st c ids rest,
    result_of (scan gc total frb c0 ids0 st) = Ok (c, ids, rest) ->
    exists scanned,
      frb = scanned ++ rest /\
      c = c0 + count_evidence scanned /\
      (rest <> [] -> c = total) /\
      (forall m, 0 < m < List.length scanned ->
                 c0 + count_evidence (firstn m scanned) <> total).
Proof.
  induction frb as [|line frb IH]; intros c0 ids0 st c ids rest H.
  - cbn in H. injection H as <- <- <-. exists []. cbn.
    repeat split; try lia; try congruence.
  - cbn [scan] in H. apply bind_ok_inv in H. destruct H as (locals & Hline & H).
    apply scan_line_count in Hline.
    destruct (Nat.eqb (fst locals) total) eqn:E.
    + cbn in H. injection H as <- <- <-. exists [line].
      apply Nat.eqb_eq in E. rewrite count_evidence_cons. cbn.
      repeat split; try lia; intros; lia.
    + apply IH in H. destruct H as (scanned & -> & -> & Hrest & Hmin).
      apply Nat.eqb_neq in E.
      exists (line :: scanned). rewrite count_evidence_cons.
      repeat split; try lia.
      * intros Hr. specialize (Hrest Hr). lia.
      * intros m Hm. destruct m as [|m]; [lia|].
        cbn [firstn]. rewrite count_evidence_cons.
        destruct m as [|m].
        -- cbn. lia.
        -- cbn [List.length] in Hm.
           specialize (Hmin (Datatypes.S m) ltac:(lia)). lia.
Qed.

Lemma scanned_lines_app (scanned rest : list str) :
  scanned_lines (scanned ++ rest) rest = scanned.
Proof.
  unfold scanned_lines. rewrite length_app.
  replace (List.length scanned + List.length rest - List.length rest)
    with (List.length scanned + 0) by lia.
  rewrite firstn_app_2. cbn. now rewrite app_nil_r.
Qed.

(** C1, as the code has it.  When the scan of a log ends without an
    exception, the lines it has read are a prefix of the lines taken last
    line first; its counter is the number of evidence lines among them,
    counted with repetition; it leaves lines unread only when that number
    equals the catalog size; and at no earlier line was that number equal to
    the catalog size. *)
Theorem scan_stops_on_evidence_count
        (gc : Catalog) (lines : list str) (st : Plugin) c ids rest :
  result_of (scan gc (List.length gc) (rev lines) 0 [] st) = Ok (c, ids, rest) ->
  let scanned := scanned_lines (rev lines) rest in
  rev lines = scanned ++ rest /\
  c = count_evidence scanned /\
  (rest <> [] -> count_evidence scanned = List.length gc) /\
  (forall m, 0 < m < List.length scanned ->
             count_evidence (firstn m scanned) <> List.length gc).
Proof.
  intros H scanned. subst scanned.
  apply scan_reads_prefix in H. destruct H as (scanned & Hfrb & Hc & Hrest & Hmin).
  rewrite Hfrb, scanned_lines_app. cbn in Hc, Hmin.
  repeat split; trivial.
  intros Hr. specialize (Hrest Hr). lia.
Qed.

Lemma scan_stops_on_evidence_count_witness :
  result_of (scan two_titles 2 (rev [rdr2_line; gta5_line; gta5_line]) 0 [] fresh_plugin)
  = Ok (2, [PyStr.lit "gta5"; PyStr.lit "gta5"], [rdr2_line]) /\
  (let scanned := scanned_lines (rev [rdr2_line; gta5_line; gta5_line]) [rdr2_line] in
   rev [rdr2_line; gta5_line; gta5_line] = scanned ++ [rdr2_line] /\
   2 = count_evidence scanned /\
   ([rdr2_line] <> [] -> count_evidence scanned = List.length two_titles) /\
   (forall m, 0 < m < List.length scanned ->
              count_evidence (firstn m scanned) <> List.length two_titles)).
Proof.
  assert (H : result_of (scan two_titles (List.length two_titles)
                              (rev [rdr2_line; gta5_line; gta5_line]) 0 [] fresh_plugin)
              = Ok (2, [PyStr.lit "gta5"; PyStr.lit "gta5"], [rdr2_line]))
    by (vm_compute; reflexivity).
  split; [exact H|].
  exact (@scan_stops_on_evidence_count two_titles [rdr2_line; gta5_line; gta5_line]
           fresh_plugin 2 [PyStr.lit "gta5"; PyStr.lit "gta5"] [rdr2_line] H).
Defined.

(** The same log through [get_owned_games]: rdr2 (game id 13), whose report
    the scan has not reached, is signalled as removed. *)
Example unread_report_counts_as_not_owned :
  let o := get_owned_games two_titles true (Some [rdr2_line; gta5_line; gta5_line])
                           fresh_plugin in
  result_of o = Ok (Some [gta5_game]) /\
  events_of o = [Log LDebug "ROCKSTAR_LOG_LOCATION"; Log LDebug "ROCKSTAR_OWNED_GAME";
                 Log LDebug "ROCKSTAR_OWNED_GAME"; RemoveGame 13].
Proof. vm_compute. split; reflexivity. Qed.

(** C1, as the spec has it, fails: with two titles in the catalog and a log
    that ends in two branch reports of the same title, the scan stops after
    these two lines, one title resolved, and leaves the report of the other
    title unread. *)
Lemma repeated_evidence_ends_scan :
  ~ stops_when_all_titles_resolved two_titles [rdr2_line; gta5_line; gta5_line] fresh_plugin.
Proof.
  intros H.
  destruct (H 2 [PyStr.lit "gta5"; PyStr.lit "gta5"] [rdr2_line]) as [Hstop _].
  - vm_compute. reflexivity.
  - specialize (Hstop ltac:(discriminate)). vm_compute in Hstop. discriminate.
Qed.

(* ------------------------------------------------------------------------- *)
(** ** What the refresh passes keep *)

Lemma preserves_bind_lift {S A B} (P : S -> Prop) (r : result A) (f : A -> M S B) :
  (forall a, r = Ok a -> preserves P (f a)) -> preserves P (bind (lift r) f).
Proof.
  intros H st HP. unfold bind, lift. destruct r as [a|e]; [|exact HP].
  specialize (H a eq_refl st HP). unfold state_of in *.
  now destruct (f a st) as [[st2 ev2] r].
Qed.

Section Frames.

Variable gc : Catalog.
Variable P : Plugin -> Prop.

Hypothesis append_ok :
  forall g, catalog_game gc g -> forall st, P st -> P (owned_games_cache_append g st).

(** Appending the game of a title id, when it is not in the cache yet. *)
Lemma append_if_absent_preserves (title_id : str) :
  preserves P
    (game <- lift (create_game_from_title_id gc title_id) ;;
     st <- get ;;
     if negb (game_in game (owned_games st)) then
       game' <- lift (create_game_from_title_id gc title_id) ;;
       modify (owned_games_cache_append game')
     else ret tt).
Proof.
  apply preserves_bind_lift. intros game _.
  apply preserves_bind; [apply preserves_get|]. intros st.
  apply preserves_if; [|apply preserves_ret].
  apply preserves_bind_lift. intros game' Hg.
  apply preserves_modify. apply append_ok.
  eapply create_game_is_catalog_game; eauto.
Qed.

Lemma scan_line_preserves line c ids : preserves P (scan_line gc line c ids).
Proof.
  unfold scan_line.
  apply preserves_if; [|apply preserves_if; apply preserves_ret].
  apply preserves_bind; [apply preserves_log|]. intros _.
  apply preserves_bind_lift. intros game _.
  apply preserves_bind; [apply preserves_get|]. intros st.
  apply preserves_bind; [|intros; apply preserves_ret].
  apply preserves_if; [|apply preserves_ret].
  apply preserves_bind_lift. intros game' Hg.
  apply preserves_modify. apply append_ok.
  eapply create_game_is_catalog_game; eauto.
Qed.

Lemma scan_preserves total frb : forall c ids, preserves P (scan gc total frb c ids).
Proof.
  induction frb as [|line frb IH]; intros c ids; cbn [scan].
  - apply preserves_ret.
  - apply preserves_bind; [apply scan_line_preserves|]. intros locals.
    apply preserves_if; [apply preserves_ret | apply IH].
Qed.

Lemma get_owned_games_authenticated_preserves lf :
  preserves P (get_owned_games gc true lf).
Proof.
  unfold get_owned_games. cbn [negb].
  apply preserves_bind; [apply preserves_log|]. intros _.
  destruct lf as [lines|].
  - apply preserves_bind; [apply scan_preserves|]. intros locals.
    apply preserves_bind.
    + apply preserves_for_each. intros item _.
      apply preserves_if; [apply preserves_emit | apply preserves_ret].
    + intros _. apply preserves_bind; [apply preserves_get|].
      intros; apply preserves_ret.
  - apply preserves_bind; [apply preserves_log|]. intros _.
    apply preserves_bind.
    + apply preserves_for_each. intros key _. apply append_if_absent_preserves.
    + intros _. apply preserves_bind; [apply preserves_get|].
      intros; apply preserves_ret.
Qed.

Hypothesis rebind_ok : forall st, P st -> P (rebind_owned_games_cache_to_empty st).

Lemma get_owned_games_preserves auth lf : preserves P (get_owned_games gc auth lf).
Proof.
  destruct auth; [apply get_owned_games_authenticated_preserves|].
  unfold get_owned_games. cbn [negb].
  apply preserves_bind; [|intros _; apply preserves_bind; intros;
                           [now apply preserves_modify | apply preserves_ret]].
  apply preserves_for_each. intros; apply preserves_emit.
Qed.

Lemma add_new_games_preserves (new : list Game) (old : ref) :
  preserves P (for_each new (fun game =>
    st <- get ;;
    if negb (game_in game (heap st old)) then add_game game else ret tt)).
Proof.
  apply preserves_for_each. intros game _.
  apply preserves_bind; [apply preserves_get|]. intros st.
  apply preserves_if; [apply preserves_emit | apply preserves_ret].
Qed.

Lemma check_for_new_games_preserves auth lf :
  (forall st, P st -> P (set_checking_for_new_games true st)) ->
  preserves P (check_for_new_games gc auth lf).
Proof.
  intros Hflag. unfold check_for_new_games.
  apply preserves_bind; [now apply preserves_modify|]. intros _.
  apply preserves_bind; [apply preserves_get|]. intros st0.
  apply preserves_bind; [apply get_owned_games_preserves|]. intros _.
  apply preserves_bind; [apply preserves_get|]. intros st1.
  apply add_new_games_preserves.
Qed.

End Frames.

Section PresenceFrames.

Variable gc : Catalog.
Variable env : Collaborators.
Variable P : Plugin -> Prop.

Lemma local_game_of_preserves game : preserves P (local_game_of gc env game).
Proof.
  unfold local_game_of.
  destruct (get_game_title_id_from_ros_title_id gc (game_id game));
    [|apply preserves_raise].
  apply preserves_bind; [apply preserves_get|]. intros st.
  destruct (get_path_to_game env s); [|apply preserves_lift].
  apply preserves_if; apply preserves_lift.
Qed.

Lemma local_games_loop_preserves games :
  forall acc, preserves P (local_games_loop gc env games acc).
Proof.
  induction games as [|game games IH]; intros acc; cbn [local_games_loop].
  - apply preserves_ret.
  - apply preserves_bind; [apply local_game_of_preserves|]. intros lg. apply IH.
Qed.

Hypothesis local_ok : forall l st, P st -> P (set_local_games_cache l st).

Lemma get_local_games_preserves : preserves P (get_local_games gc env).
Proof.
  unfold get_local_games.
  apply preserves_bind; [apply preserves_get|]. intros st.
  apply preserves_bind; [apply local_games_loop_preserves|]. intros lgs.
  apply preserves_bind; [apply preserves_modify; intros; now apply local_ok|].
  intros _.
  apply preserves_bind; [apply preserves_log|]. intros _. apply preserves_ret.
Qed.

Lemma check_game_statuses_preserves :
  (forall st, P st -> P (set_updating_game_statuses true st)) ->
  preserves P (check_game_statuses gc env).
Proof.
  intros Hflag. unfold check_game_statuses.
  apply preserves_bind; [now apply preserves_modify|]. intros _.
  apply preserves_bind; [apply get_local_games_preserves|]. intros lgs.
  apply preserves_for_each. intros; apply preserves_emit.
Qed.

End PresenceFrames.

Lemma tick_keeps_state (st : Plugin) : state_of (tick st) = st.
Proof.
  unfold tick, bind, get, log, emit, ret, state_of.
  destruct (checking_for_new_games st), (updating_game_statuses st); reflexivity.
Qed.

Lemma run_segment_preserves gc P w t :
  stable gc P -> preserves P (run_segment gc w t).
Proof.
  intros [Ha Hr Hc Hu Hl]. unfold run_segment.
  destruct (coroutine t), (phase t); try apply preserves_ret.
  - apply check_for_new_games_preserves; auto.
  - apply preserves_modify. auto.
  - apply check_game_statuses_preserves; auto.
  - apply preserves_modify. auto.
Qed.

Lemma step_preserves gc P l a :
  stable gc P -> P (plugin l) -> P (plugin (step gc l a)).
Proof.
  intros Hs HP. destruct a as [|i w]; cbn [step].
  - pose proof (tick_keeps_state (plugin l)) as Hk. unfold state_of in Hk.
    destruct (tick (plugin l)) as [[st ev] [cs|e]]; cbn in *; now subst.
  - destruct (nth_error (tasks l) i) as [t|]; [|exact HP].
    pose proof (@run_segment_preserves gc P w t Hs (plugin l) HP) as H.
    unfold state_of in H.
    now destruct (run_segment gc w t (plugin l)) as [[st ev] r].
Qed.

Lemma run_preserves gc P actions :
  stable gc P -> forall l, P (plugin l) -> P (plugin (run gc l actions)).
Proof.
  intros Hs. unfold run.
  induction actions as [|a actions IH]; intros l HP; cbn [fold_left]; trivial.
  apply IH. now apply step_preserves.
Qed.

(* ------------------------------------------------------------------------- *)
(** ** The owned-games cache *)

Lemma owned_games_append (g : Game) (st : Plugin) :
  owned_games (owned_games_cache_append g st) = owned_games st ++ [g].
Proof. unfold owned_games. cbn. now rewrite Nat.eqb_refl. Qed.

Lemma owned_games_rebind (st : Plugin) :
  owned_games (rebind_owned_games_cache_to_empty st) = [].
Proof. unfold owned_games. cbn. now rewrite Nat.eqb_refl. Qed.

Lemma owned_within_catalog_stable (gc : Catalog) : stable gc (owned_within_catalog gc).
Proof.
  split; unfold owned_within_catalog.
  - intros g Hg st H g'. rewrite owned_games_append, in_app_iff.
    intros [Hin|[<-|[]]]; auto.
  - intros st _ g. rewrite owned_games_rebind. contradiction.
  - intros b st H. exact H.
  - intros b st H. exact H.
  - intros l st H. exact H.
Qed.

Lemma create_total_games_cache_from_keys (gc : Catalog) (keys : list str) :
  (forall k, In k keys -> In k (map fst gc)) ->
  forall cache, exists games,
    create_total_games_cache_from gc keys cache = Ok (cache ++ games) /\
    Forall2 (fun k g => create_game_from_title_id gc k = Ok g) keys games.
Proof.
  induction keys as [|k keys IH]; intros Hk cache; cbn.
  - exists []. now rewrite app_nil_r.
  - destruct (lookup_of_key gc k (Hk k (or_introl eq_refl))) as (v & Hv).
    unfold create_game_from_title_id at 1. rewrite Hv.
    destruct (IH (fun k' H => Hk k' (or_intror H))
                 (cache ++ [mkGame (rosTitleId v) (friendlyName v) (licenseInfo v)]))
      as (games & -> & HF).
    exists (mkGame (rosTitleId v) (friendlyName v) (licenseInfo v) :: games).
    rewrite <- app_assoc. split; [reflexivity|].
    constructor; trivial. unfold create_game_from_title_id. now rewrite Hv.
Qed.

(** [__init__] does not raise, and starts from an empty owned-games cache. *)
Lemma init_returns (gc : Catalog) :
  exists st0, init gc = Ok st0 /\ owned_games st0 = [] /\
              create_total_games_cache gc = Ok (total_games_cache st0) /\
              running_games_pids st0 = [] /\
              checking_for_new_games st0 = false /\ updating_game_statuses st0 = false.
Proof.
  unfold init, create_total_games_cache.
  destruct (create_total_games_cache_from_keys gc (map fst gc) (fun k H => H) [])
    as (games & -> & _).
  eexists. repeat split.
Qed.

(** C8.  From the creation of the plugin on, whatever the host and the event
    loop do (ticks, starts and ends of refresh passes, in any order) and
    whatever the log holds, every game in the owned-games cache is the game of
    a key of the catalog. *)
Theorem owned_games_stay_within_catalog (gc : Catalog) :
  exists st0,
    init gc = Ok st0 /\
    forall (actions : list Action) (g : Game),
      In g (owned_games (plugin (run gc (start st0) actions))) ->
      exists key, In key (map fst gc) /\ create_game_from_title_id gc key = Ok g.
Proof.
  destruct (init_returns gc) as (st0 & Hinit & Hempty & _).
  exists st0. split; trivial. intros actions.
  apply (@run_preserves gc (owned_within_catalog gc) actions
           (owned_within_catalog_stable gc) (start st0)).
  intros g. cbn [start plugin]. rewrite Hempty. contradiction.
Qed.

(** A branch report of a title that is not in the catalog ends the pass with
    [KeyError], the cache as it was. *)
Example unknown_title_is_not_cached :
  let o := check_for_new_games two_titles true (Some [liberty_city_line]) fresh_plugin in
  result_of o = Raise KeyError /\ owned_games (state_of o) = [].
Proof. vm_compute. split; reflexivity. Qed.

(** The fallback loop: every key of the catalog ends up in the cache, and
    nothing else is added. *)
Lemma assume_all_owned (gc : Catalog) (keys : list str) :
  (forall k, In k keys -> In k (map fst gc)) ->
  forall st,
    let o := for_each keys (fun key =>
               game <- lift (create_game_from_title_id gc key) ;;
               st <- get ;;
               if negb (game_in game (owned_games st)) then
                 game' <- lift (create_game_from_title_id gc key) ;;
                 modify (owned_games_cache_append game')
               else ret tt) st in
    result_of o = Ok tt /\ events_of o = [] /\
    forall g, In g (owned_games (state_of o)) <->
              In g (owned_games st) \/
              exists k, In k keys /\ create_game_from_title_id gc k = Ok g.
Proof.
  induction keys as [|k keys IH]; intros Hk st; cbn [for_each].
  - cbn. repeat split; trivial.
    + tauto.
    + intros [H|(k & [] & _)]. exact H.
  - destruct (lookup_of_key gc k (Hk k (or_introl eq_refl))) as (v & Hv).
    set (g0 := mkGame (rosTitleId v) (friendlyName v) (licenseInfo v)).
    assert (Hg0 : create_game_from_title_id gc k = Ok g0)
      by (unfold create_game_from_title_id; now rewrite Hv).
    set (st1 := if game_in g0 (owned_games st) then st else owned_games_cache_append g0 st).
    assert (Hbody :
      (game <- lift (create_game_from_title_id gc k) ;;
       st <- get ;;
       if negb (game_in game (owned_games st)) then
         game' <- lift (create_game_from_title_id gc k) ;;
         modify (owned_games_cache_append game')
       else ret tt) st = (st1, [], Ok tt)).
    { unfold bind, lift, get, modify, ret. rewrite Hg0. subst st1.
      destruct (game_in g0 (owned_games st)); reflexivity. }
    rewrite (bind_run _ _ _ Hbody). cbn [state_of events_of result_of fst snd app].
    destruct (IH (fun k' H => Hk k' (or_intror H)) st1) as (Hr & He & Hin).
    repeat split; trivial.
    + intros H. apply Hin in H. destruct H as [H|(k' & Hk' & Hc)].
      * subst st1. destruct (game_in g0 (owned_games st)); [now left|].
        rewrite owned_games_append, in_app_iff in H.
        destruct H as [H|[<-|[]]]; [now left|]. right. exists k. split; [now left|trivial].
      * right. exists k'. split; [now right|trivial].
    + intros H. apply Hin. destruct H as [H|(k' & [<-|Hk'] & Hc)].
      * left. subst st1. destruct (game_in g0 (owned_games st)); trivial.
        rewrite owned_games_append, in_app_iff. now left.
      * left. rewrite Hg0 in Hc. injection Hc as <-. subst st1.
        unfold game_in. destruct (in_dec Game_eq_dec g0 (owned_games st)); trivial.
        rewrite owned_games_append, in_app_iff. right. now left.
      * right. now exists k'.
Qed.

Lemma get_owned_games_without_log (gc : Catalog) (st st1 : Plugin) :
  for_each (map fst gc) (fun key =>
    game <- lift (create_game_from_title_id gc key) ;;
    st <- get ;;
    if negb (game_in game (owned_games st)) then
      game' <- lift (create_game_from_title_id gc key) ;;
      modify (owned_games_cache_append game')
    else ret tt) st = (st1, [], Ok tt) ->
  get_owned_games gc true None st
  = (st1,
     [Log LDebug "ROCKSTAR_LOG_LOCATION";
      Log LWarning "WARNING: The log file could not be found and/or read from. Assuming all games are owned..."],
     Ok (Some (owned_games st1))).
Proof.
  intros Hloop. unfold get_owned_games. cbn [negb].
  rewrite (bind_run _ _ st (st1 := st) (ev1 := [Log LDebug "ROCKSTAR_LOG_LOCATION"])
                    (a := tt) eq_refl).
  rewrite (bind_run _ _ st (st1 := st) (ev1 := [Log LWarning _]) (a := tt) eq_refl).
  rewrite (bind_run _ _ st Hloop).
  reflexivity.
Qed.

(** The fallback in every state the plugin can be in: what it logs, what it
    returns, and which games the cache then holds, said with the method that
    made them. *)
Lemma missing_log_run (gc : Catalog) :
  exists st0,
    init gc = Ok st0 /\
    forall actions : list Action,
      let st := plugin (run gc (start st0) actions) in
      let o := get_owned_games gc true None st in
      events_of o =
        [Log LDebug "ROCKSTAR_LOG_LOCATION";
         Log LWarning "WARNING: The log file could not be found and/or read from. Assuming all games are owned..."] /\
      result_of o = Ok (Some (owned_games (state_of o))) /\
      forall g, In g (owned_games (state_of o)) <->
                exists key, In key (map fst gc) /\ create_game_from_title_id gc key = Ok g.
Proof.
  destruct (init_returns gc) as (st0 & Hinit & Hempty & _).
  exists st0. split; trivial. intros actions st o.
  assert (Hinv : owned_within_catalog gc st).
  { apply (@run_preserves gc (owned_within_catalog gc) actions
             (owned_within_catalog_stable gc) (start st0)).
    intros g. cbn [start plugin]. rewrite Hempty. contradiction. }
  destruct (assume_all_owned gc (map fst gc) (fun k H => H) st) as (Hr & He & Hin).
  match type of Hr with
  | result_of (?loop) = _ => destruct loop as [[st1 ev1] r1] eqn:Hloop
  end.
  cbn [result_of events_of state_of fst snd] in Hr, He, Hin. subst r1 ev1.
  subst o. rewrite (@get_owned_games_without_log gc st st1 Hloop).
  cbn [result_of events_of state_of fst snd]. repeat split; trivial.
  - intros H. apply Hin in H. destruct H as [H|H]; [now apply Hinv | exact H].
  - intros H. apply Hin. now right.
Qed.

(** The games of the keys of a dict are the games of its values. *)
Lemma games_of_keys_are_games_of_values (gc : Catalog) (g : Game) :
  dict_keys_unique gc ->
  (exists key, In key (map fst gc) /\ create_game_from_title_id gc key = Ok g) <->
  In g (map (fun item : str * Title => game_of_title (snd item)) gc).
Proof.
  intros Hunique. rewrite in_map_iff. split.
  - intros (key & _ & Hcreate). unfold create_game_from_title_id in Hcreate.
    destruct (lookup gc key) as [value|] eqn:Hvalue; [|discriminate].
    injection Hcreate as <-. exists (key, value). split; [reflexivity|].
    now apply lookup_in_items.
  - intros ([key value] & <- & Hin). exists key. split.
    + apply in_map_iff. now exists (key, value).
    + unfold create_game_from_title_id. now rewrite (@lookup_unique gc key value Hunique Hin).
Qed.

(** C6.  Over a catalog (a dict: no key twice) and in every state the plugin
    can be in, when the session is authenticated and the log file does not
    exist, [get_owned_games] returns (it does not raise) the owned-games
    cache, and the games in it are then exactly the games of the titles of
    the catalog, one for every entry, each with the id, name and license of
    its entry; what it writes to the log is one debug record and one
    warning, no error, and it sends nothing to the host. *)
Theorem missing_log_assumes_all_owned (gc : Catalog) :
  dict_keys_unique gc ->
  exists st0,
    init gc = Ok st0 /\
    forall actions : list Action,
      let st := plugin (run gc (start st0) actions) in
      let o := get_owned_games gc true None st in
      events_of o =
        [Log LDebug "ROCKSTAR_LOG_LOCATION";
         Log LWarning "WARNING: The log file could not be found and/or read from. Assuming all games are owned..."] /\
      result_of o = Ok (Some (owned_games (state_of o))) /\
      forall g, In g (owned_games (state_of o)) <->
                In g (map (fun item : str * Title => game_of_title (snd item)) gc).
Proof.
  intros Hunique. destruct (missing_log_run gc) as (st0 & Hinit & Hrun).
  exists st0. split; trivial. intros actions st o.
  destruct (Hrun actions) as (Hevents & Hresult & Hgames).
  repeat split; trivial.
  - intros H. apply (@games_of_keys_are_games_of_values gc g Hunique). now apply Hgames.
  - intros H. apply Hgames. now apply (@games_of_keys_are_games_of_values gc g Hunique).
Qed.

(** C6 on the catalog of two titles: with no log, both are owned, from the
    start and after any schedule. *)
Lemma missing_log_assumes_all_owned_witness :
  exists st0,
    init two_titles = Ok st0 /\
    forall actions : list Action,
      let st := plugin (run two_titles (start st0) actions) in
      let o := get_owned_games two_titles true None st in
      events_of o =
        [Log LDebug "ROCKSTAR_LOG_LOCATION";
         Log LWarning "WARNING: The log file could not be found and/or read from. Assuming all games are owned..."] /\
      result_of o = Ok (Some (owned_games (state_of o))) /\
      forall g, In g (owned_games (state_of o)) <->
                In g (map (fun item : str * Title => game_of_title (snd item)) two_titles).
Proof.
  apply (@missing_log_assumes_all_owned two_titles).
  unfold dict_keys_unique. repeat constructor; cbn; intuition discriminate.
Defined.

Lemma get_owned_games_unauthenticated
      (gc : Catalog) (log_file : option (list str)) (st : Plugin) :
  get_owned_games gc false log_file st
  = (rebind_owned_games_cache_to_empty st,
     map (fun item => RemoveGame (rosTitleId (snd item))) gc,
     Ok None).
Proof.
  unfold get_owned_games. cbn [negb]. unfold remove_game.
  rewrite (bind_run _ _ st (for_each_emit gc _ st)).
  cbn. now rewrite app_nil_r.
Qed.

(** C7, on the code.  When the session is not authenticated,
    [get_owned_games] sends the host the removal of every title of the
    catalog and leaves the owned-games cache empty; what it returns is [None]
    (the bare [return]), not an empty list. *)
Theorem unauthenticated_returns_none
        (gc : Catalog) (log_file : option (list str)) (st : Plugin) :
  let o := get_owned_games gc false log_file st in
  result_of o = Ok None /\
  events_of o = map (fun item => RemoveGame (rosTitleId (snd item))) gc /\
  owned_games (state_of o) = [].
Proof.
  cbn zeta. rewrite get_owned_games_unauthenticated.
  cbn [result_of events_of state_of fst snd]. repeat split.
  apply owned_games_rebind.
Qed.

(** C3, on the code.  Two refresh passes over the catalog of two titles: the
    log of the first reports gta5 on a branch; the log of the second reports
    rdr2 on a branch and gta5 without branches.  The second pass sends the
    host the removal of gta5 (game id 11), and gta5 is still in the
    owned-games cache after it, before rdr2. *)
Theorem stale_title_stays_in_cache :
  let first := check_for_new_games two_titles true (Some [gta5_line]) fresh_plugin in
  let second := check_for_new_games two_titles true
                  (Some [gta5_no_branches_line; rdr2_line]) (state_of first) in
  owned_games (state_of first) = [gta5_game] /\
  result_of second = Ok tt /\
  events_of second =
    [Log LDebug "ROCKSTAR_LOG_LOCATION"; Log LDebug "ROCKSTAR_OWNED_GAME"; RemoveGame 11] /\
  owned_games (state_of second) = [gta5_game; rdr2_game].
Proof.
  vm_compute. repeat split.
Qed.

(* ------------------------------------------------------------------------- *)
(** ** What the ownership-refresh pass sends *)

Section Emissions.

Context {S : Type}.
Variable Q : Event -> Prop.

Lemma emits_only_ret {A} (a : A) : emits_only Q (@ret S A a).
Proof. intros st. constructor. Qed.

Lemma emits_only_lift {A} (r : result A) : emits_only Q (@lift S A r).
Proof. intros st. constructor. Qed.

Lemma emits_only_get : emits_only Q (@get S).
Proof. intros st. constructor. Qed.

Lemma emits_only_modify (f : S -> S) : emits_only Q (modify f).
Proof. intros st. constructor. Qed.

Lemma emits_only_emit (e : Event) : Q e -> emits_only Q (@emit S e).
Proof. intros H st. now repeat constructor. Qed.

Lemma emits_only_bind {A B} (m : M S A) (f : A -> M S B) :
  emits_only Q m -> (forall a, emits_only Q (f a)) -> emits_only Q (bind m f).
Proof.
  intros Hm Hf st. specialize (Hm st). unfold bind, events_of in *.
  destruct (m st) as [[st1 ev1] [a|e]]; cbn in *; trivial.
  specialize (Hf a st1). unfold events_of in Hf.
  destruct (f a st1) as [[st2 ev2] r]; cbn in *.
  apply Forall_app. now split.
Qed.

Lemma emits_only_if {A} (b : bool) (m1 m2 : M S A) :
  emits_only Q m1 -> emits_only Q m2 -> emits_only Q (if b then m1 else m2).
Proof. now destruct b. Qed.

Lemma emits_only_for_each {A} (xs : list A) (body : A -> M S unit) :
  (forall x, emits_only Q (body x)) -> emits_only Q (for_each xs body).
Proof.
  intros H. induction xs as [|x xs IH]; cbn [for_each].
  - apply emits_only_ret.
  - apply emits_only_bind; [apply H | intros _; apply IH].
Qed.

End Emissions.

Lemma append_if_absent_adds_no_game gc key :
  emits_only not_game_added
    (game <- lift (create_game_from_title_id gc key) ;;
     st <- get ;;
     if negb (game_in game (owned_games st)) then
       game' <- lift (create_game_from_title_id gc key) ;;
       modify (owned_games_cache_append game')
     else ret tt).
Proof.
  apply emits_only_bind; [apply emits_only_lift|]. intros game.
  apply emits_only_bind; [apply emits_only_get|]. intros st.
  apply emits_only_if; [|apply emits_only_ret].
  apply emits_only_bind; [apply emits_only_lift|]. intros game'.
  apply emits_only_modify.
Qed.

Lemma scan_adds_no_game gc total frb :
  forall c ids, emits_only not_game_added (scan gc total frb c ids).
Proof.
  induction frb as [|line frb IH]; intros c ids; cbn [scan].
  - apply emits_only_ret.
  - apply emits_only_bind.
    + unfold scan_line.
      apply emits_only_if; [|apply emits_only_if; apply emits_only_ret].
      apply emits_only_bind; [now apply emits_only_emit|]. intros _.
      apply emits_only_bind; [apply emits_only_lift|]. intros game.
      apply emits_only_bind; [apply emits_only_get|]. intros st.
      apply emits_only_bind; [|intros; apply emits_only_ret].
      apply emits_only_if; [|apply emits_only_ret].
      apply emits_only_bind; [apply emits_only_lift|]. intros game'.
      apply emits_only_modify.
    + intros locals. apply emits_only_if; [apply emits_only_ret | apply IH].
Qed.

Lemma get_owned_games_adds_no_game gc auth lf :
  emits_only not_game_added (get_owned_games gc auth lf).
Proof.
  unfold get_owned_games. apply emits_only_if.
  - apply emits_only_bind.
    + apply emits_only_for_each. intros item. now apply emits_only_emit.
    + intros _. apply emits_only_bind; [apply emits_only_modify|].
      intros _. apply emits_only_ret.
  - apply emits_only_bind; [now apply emits_only_emit|]. intros _.
    destruct lf as [lines|].
    + apply emits_only_bind; [apply scan_adds_no_game|]. intros locals.
      apply emits_only_bind.
      * apply emits_only_for_each. intros item.
        apply emits_only_if; [now apply emits_only_emit | apply emits_only_ret].
      * intros _. apply emits_only_bind; [apply emits_only_get|].
        intros; apply emits_only_ret.
    + apply emits_only_bind; [now apply emits_only_emit|]. intros _.
      apply emits_only_bind.
      * apply emits_only_for_each. intros key. apply append_if_absent_adds_no_game.
      * intros _. apply emits_only_bind; [apply emits_only_get|].
        intros; apply emits_only_ret.
Qed.

(** The loop of [check_for_new_games] over games that the old list holds. *)
Lemma no_new_games (new : list Game) (old : ref) (st : Plugin) :
  (forall g, In g new -> In g (heap st old)) ->
  for_each new (fun game =>
    st <- get ;;
    if negb (game_in game (heap st old)) then add_game game else ret tt) st
  = (st, [], Ok tt).
Proof.
  induction new as [|g new IH]; intros H; cbn [for_each]; [reflexivity|].
  assert (Hbody :
    (st' <- get ;;
     if negb (game_in g (heap st' old)) then add_game g else ret tt) st = (st, [], Ok tt)).
  { unfold bind, get. cbn. unfold game_in.
    destruct (in_dec Game_eq_dec g (heap st old)) as [_|Hn]; [reflexivity|].
    exfalso. apply Hn, H. now left. }
  rewrite (bind_run _ _ st Hbody). rewrite IH by (intros g' Hg'; apply H; now right).
  reflexivity.
Qed.

(** [get_owned_games] never leaves the old list without its games: with a
    session it appends to the very list the cache refers to, without one it
    makes the cache an empty list. *)
Lemma new_games_are_old gc auth lf st :
  let st1 := state_of (get_owned_games gc auth lf st) in
  forall g, In g (owned_games st1) -> In g (heap st1 (owned_games_cache st)).
Proof.
  destruct auth.
  - assert (H : owned_games_cache (state_of (get_owned_games gc true lf st))
                = owned_games_cache st).
    { apply (@get_owned_games_authenticated_preserves gc
               (fun s => owned_games_cache s = owned_games_cache st)); trivial. }
    cbn zeta. unfold owned_games. now rewrite H.
  - rewrite get_owned_games_unauthenticated. cbn [state_of fst].
    intros g. rewrite owned_games_rebind. contradiction.
Qed.

Lemma check_for_new_games_run gc auth lf st st1 ev1 r :
  get_owned_games gc auth lf (set_checking_for_new_games true st) = (st1, ev1, r) ->
  check_for_new_games gc auth lf st
  = (st1, ev1, match r with Ok _ => Ok tt | Raise e => Raise e end).
Proof.
  intros Hg.
  pose proof (new_games_are_old gc auth lf (set_checking_for_new_games true st)) as Hold.
  rewrite Hg in Hold. cbn [state_of fst] in Hold.
  unfold check_for_new_games.
  rewrite (bind_run _ _ st (st1 := set_checking_for_new_games true st)
                    (ev1 := []) (a := tt) eq_refl).
  rewrite (bind_run _ _ _ (st1 := set_checking_for_new_games true st)
                    (ev1 := []) (a := set_checking_for_new_games true st) eq_refl).
  destruct r as [v|e].
  - rewrite (bind_run _ _ _ Hg).
    rewrite (bind_run _ _ st1 (st1 := st1) (ev1 := []) (a := st1) eq_refl).
    unfold owned_games in Hold. rewrite (no_new_games _ _ st1 Hold).
    cbn. now rewrite app_nil_r.
  - rewrite (@bind_raise _ _ _ _ _ _ _ _ _ Hg). reflexivity.
Qed.

(** X1.  The ownership-refresh pass never sends the host a "game added"
    notification: [old_games_cache] and [new_games_cache] refer to the same
    list when the session is authenticated, and the new list is empty when it
    is not, so no game of the new list is missing from the old one. *)
Theorem ownership_pass_adds_no_game
        (gc : Catalog) (auth : bool) (lf : option (list str)) (st : Plugin) (g : Game) :
  ~ In (AddGame g) (events_of (check_for_new_games gc auth lf st)).
Proof.
  destruct (get_owned_games gc auth lf (set_checking_for_new_games true st))
    as [[st1 ev1] r] eqn:Hg.
  rewrite (check_for_new_games_run _ _ _ _ Hg). cbn [events_of fst snd].
  pose proof (get_owned_games_adds_no_game gc auth lf
                (set_checking_for_new_games true st)) as Hev.
  rewrite Hg in Hev. cbn [events_of fst snd] in Hev.
  intros Hin. rewrite Forall_forall in Hev. exact (Hev _ Hin).
Qed.

(** X2.  With an authenticated session [get_owned_games] only appends to the
    owned-games cache: the cache it finds is a prefix of the cache it leaves,
    whatever the log holds and whether it returns or raises. *)
Theorem authenticated_pass_only_appends
        (gc : Catalog) (lf : option (list str)) (st : Plugin) :
  exists added,
    owned_games (state_of (get_owned_games gc true lf st)) = owned_games st ++ added.
Proof.
  apply (@get_owned_games_authenticated_preserves gc
           (fun s => exists added, owned_games s = owned_games st ++ added)).
  - intros g _ s (added & H). exists (added ++ [g]).
    now rewrite owned_games_append, H, app_assoc.
  - exists []. now rewrite app_nil_r.
Qed.

(* ------------------------------------------------------------------------- *)
(** ** Local presence detector *)

Lemma title_id_of_ros_unique (gc : Catalog) (k : str) (v : Title) :
  ros_title_ids_unique gc -> In (k, v) gc ->
  get_game_title_id_from_ros_title_id gc (rosTitleId v) = Some k.
Proof.
  unfold ros_title_ids_unique.
  induction gc as [|[key value] gc IH]; cbn; [contradiction|].
  intros Hnd [H|H].
  - injection H as -> ->. now rewrite Z.eqb_refl.
  - inversion Hnd as [|? ? Hnotin Hnd']; subst.
    destruct (Z.eqb (rosTitleId value) (rosTitleId v)) eqn:E.
    + apply Z.eqb_eq in E. exfalso. apply Hnotin. rewrite E.
      apply in_map_iff. now exists (k, v).
    + now apply IH.
Qed.

Lemma total_games_of_catalog (gc : Catalog) :
  dict_keys_unique gc ->
  forall gc', incl gc' gc ->
  forall cache,
    create_total_games_cache_from gc (map fst gc') cache
    = Ok (cache ++ map (fun item => game_of_title (snd item)) gc').
Proof.
  intros Hu. induction gc' as [|[k v] gc' IH]; intros Hincl cache; cbn.
  - now rewrite app_nil_r.
  - unfold create_game_from_title_id.
    rewrite (@lookup_unique gc k v Hu (Hincl _ (or_introl eq_refl))).
    rewrite IH by (intros x Hx; apply Hincl; now right).
    now rewrite <- app_assoc.
Qed.

Section Presence.

Variable gc : Catalog.
Variable env : Collaborators.
Hypothesis keys_unique : dict_keys_unique gc.
Hypothesis ids_unique : ros_title_ids_unique gc.

Lemma local_game_of_title (st : Plugin) (k : str) (v : Title) :
  In (k, v) gc ->
  local_game_of gc env (game_of_title v) st
  = (st, [], Ok (mkLocalGame (rosTitleId v)
                             (spec_presence_state env (running_games_pids st) k))).
Proof.
  intros Hin. unfold local_game_of, spec_presence_state. cbn [game_of_title game_id].
  rewrite (@title_id_of_ros_unique gc k v ids_unique Hin).
  unfold bind, get, lift, create_local_game_from_title_id.
  rewrite (@lookup_unique gc k v keys_unique Hin).
  destruct (get_path_to_game env k); [|reflexivity].
  destruct (pids_lookup (running_games_pids st) k) as [[handle tracked]|];
    [|reflexivity].
  cbn [fst]. now destruct (check_if_process_exists env handle).
Qed.

Lemma local_games_loop_of_catalog (st : Plugin) :
  forall gc', incl gc' gc ->
  forall acc,
    local_games_loop gc env (map (fun item => game_of_title (snd item)) gc') acc st
    = (st, [], Ok (acc ++ spec_local_games gc' env (running_games_pids st))).
Proof.
  induction gc' as [|[k v] gc' IH]; intros Hincl acc; cbn [map local_games_loop].
  - unfold spec_local_games. cbn. now rewrite app_nil_r.
  - rewrite (bind_run _ _ st (@local_game_of_title st k v (Hincl _ (or_introl eq_refl)))).
    rewrite IH by (intros x Hx; apply Hincl; now right).
    cbn. unfold spec_local_games. cbn. now rewrite <- app_assoc.
Qed.

Lemma get_local_games_of_catalog (st : Plugin) :
  create_total_games_cache gc = Ok (total_games_cache st) ->
  get_local_games gc env st
  = (set_local_games_cache (spec_local_games gc env (running_games_pids st)) st,
     [Log LDebug "ROCKSTAR_INSTALLED_GAMES"],
     Ok (spec_local_games gc env (running_games_pids st))).
Proof.
  intros Htotal. unfold create_total_games_cache in Htotal.
  rewrite (@total_games_of_catalog gc keys_unique gc (incl_refl gc) []) in Htotal.
  injection Htotal as Htotal. cbn [app] in Htotal.
  unfold get_local_games.
  rewrite (bind_run _ _ st (st1 := st) (ev1 := []) (a := st) eq_refl).
  rewrite <- Htotal.
  rewrite (bind_run _ _ st (@local_games_loop_of_catalog st gc (incl_refl gc) [])).
  reflexivity.
Qed.

Lemma check_game_statuses_of_catalog (st : Plugin) :
  create_total_games_cache gc = Ok (total_games_cache st) ->
  check_game_statuses gc env st
  = (set_local_games_cache (spec_local_games gc env (running_games_pids st))
                           (set_updating_game_statuses true st),
     Log LDebug "ROCKSTAR_INSTALLED_GAMES"
         :: map UpdateLocalGameStatus (spec_local_games gc env (running_games_pids st)),
     Ok tt).
Proof.
  intros Htotal. unfold check_game_statuses.
  rewrite (bind_run _ _ st (st1 := set_updating_game_statuses true st)
                    (ev1 := []) (a := tt) eq_refl).
  rewrite (bind_run _ _ _ (@get_local_games_of_catalog
                             (set_updating_game_statuses true st) Htotal)).
  unfold update_local_game_status. rewrite for_each_emit. reflexivity.
Qed.

End Presence.

Lemma local_state_changes_of_updates (lgs : list LocalGame) :
  local_state_changes (map UpdateLocalGameStatus lgs) = lgs.
Proof.
  unfold local_state_changes.
  induction lgs as [|lg lgs IH]; cbn; [reflexivity | now rewrite IH].
Qed.

(** C9.  Over a catalog whose keys and host-facing ids are pairwise
    different, [get_local_games] returns one record per title of the catalog,
    in the catalog's order, with the host-facing id of the title and the
    state the spec words: not installed without an install path; running with
    a path and a tracked process the process table reports alive; installed
    with a path otherwise.  A title with a path whose tracked process the
    process table reports gone is installed, not running. *)
Theorem presence_follows_collaborators
        (gc : Catalog) (env : Collaborators) (st : Plugin) :
  dict_keys_unique gc ->
  ros_title_ids_unique gc ->
  create_total_games_cache gc = Ok (total_games_cache st) ->
  result_of (get_local_games gc env st)
  = Ok (spec_local_games gc env (running_games_pids st)) /\
  forall key value path handle tracked,
    In (key, value) gc ->
    get_path_to_game env key = Some path ->
    pids_lookup (running_games_pids st) key = Some (handle, tracked) ->
    check_if_process_exists env handle = false ->
    In (mkLocalGame (rosTitleId value) Installed)
       (spec_local_games gc env (running_games_pids st)) /\
    spec_presence_state env (running_games_pids st) key <> Running.
Proof.
  intros Hk Hi Htotal. split.
  - now rewrite (@get_local_games_of_catalog gc env Hk Hi st Htotal).
  - intros key value path handle tracked Hin Hpath Hpid Hgone.
    assert (Hs : spec_presence_state env (running_games_pids st) key = Installed)
      by (unfold spec_presence_state; now rewrite Hpath, Hpid, Hgone).
    split; [|rewrite Hs; discriminate].
    unfold spec_local_games. apply in_map_iff. exists (key, value).
    cbn [fst snd]. now rewrite Hs.
Qed.

Ltac all_different :=
  repeat constructor; cbn; intuition discriminate.

Lemma presence_follows_collaborators_witness :
  result_of (get_local_games two_titles gta5_installed_nothing_alive plugin_tracking_gta5)
  = Ok (spec_local_games two_titles gta5_installed_nothing_alive
                         (running_games_pids plugin_tracking_gta5)) /\
  forall key value path handle tracked,
    In (key, value) two_titles ->
    get_path_to_game gta5_installed_nothing_alive key = Some path ->
    pids_lookup (running_games_pids plugin_tracking_gta5) key = Some (handle, tracked) ->
    check_if_process_exists gta5_installed_nothing_alive handle = false ->
    In (mkLocalGame (rosTitleId value) Installed)
       (spec_local_games two_titles gta5_installed_nothing_alive
                         (running_games_pids plugin_tracking_gta5)) /\
    spec_presence_state gta5_installed_nothing_alive
                        (running_games_pids plugin_tracking_gta5) key <> Running.
Proof.
  apply (@presence_follows_collaborators two_titles gta5_installed_nothing_alive
           plugin_tracking_gta5).
  - unfold dict_keys_unique. all_different.
  - unfold ros_title_ids_unique. all_different.
  - reflexivity.
Defined.

(** The scenario of the spec, computed: gta5 has an install path and a
    tracked process that is gone, rdr2 has no install path. *)
Example tracked_process_gone :
  result_of (get_local_games two_titles gta5_installed_nothing_alive plugin_tracking_gta5)
  = Ok [mkLocalGame 11 Installed; mkLocalGame 13 None_].
Proof. reflexivity. Qed.

(* ------------------------------------------------------------------------- *)
(** ** Presence-refresh pass *)

(** C2, as the code has it.  Over a catalog whose keys and host-facing ids
    are pairwise different, the presence-refresh pass sends the host one
    "local state changed" notification for each title of the catalog, with
    the state it has just computed, whatever the cache held; run a second
    time with the same answers, when the cache already holds these states, it
    sends the same notifications again. *)
Theorem presence_pass_notifies_every_title
        (gc : Catalog) (env : Collaborators) (st : Plugin) :
  dict_keys_unique gc ->
  ros_title_ids_unique gc ->
  create_total_games_cache gc = Ok (total_games_cache st) ->
  let first := check_game_statuses gc env st in
  let second := check_game_statuses gc env (state_of first) in
  let computed := spec_local_games gc env (running_games_pids st) in
  List.length computed = List.length gc /\
  result_of first = Ok tt /\
  local_state_changes (events_of first) = computed /\
  local_games_cache (state_of first) = computed /\
  result_of second = Ok tt /\
  local_state_changes (events_of second) = computed.
Proof.
  intros Hk Hi Htotal first second computed.
  assert (H1 := @check_game_statuses_of_catalog gc env Hk Hi st Htotal).
  fold computed in H1. fold first in H1.
  assert (H2 := @check_game_statuses_of_catalog gc env Hk Hi (state_of first)).
  fold second in H2. rewrite H1 in H2.
  cbn [state_of fst total_games_cache running_games_pids
         set_local_games_cache set_updating_game_statuses] in H2.
  specialize (H2 Htotal). fold computed in H2.
  rewrite H1, H2. cbn [result_of events_of state_of fst snd local_games_cache
                         set_local_games_cache].
  repeat split.
  - unfold computed, spec_local_games. apply length_map.
  - cbn [local_state_changes flat_map app]. apply local_state_changes_of_updates.
  - cbn [local_state_changes flat_map app]. apply local_state_changes_of_updates.
Qed.

Lemma presence_pass_notifies_every_title_witness :
  let first := check_game_statuses two_titles gta5_installed_nothing_alive fresh_plugin in
  let second := check_game_statuses two_titles gta5_installed_nothing_alive (state_of first) in
  let computed := spec_local_games two_titles gta5_installed_nothing_alive
                                   (running_games_pids fresh_plugin) in
  List.length computed = List.length two_titles /\
  result_of first = Ok tt /\
  local_state_changes (events_of first) = computed /\
  local_games_cache (state_of first) = computed /\
  result_of second = Ok tt /\
  local_state_changes (events_of second) = computed.
Proof.
  apply (@presence_pass_notifies_every_title two_titles gta5_installed_nothing_alive
           fresh_plugin).
  - unfold dict_keys_unique. all_different.
  - unfold ros_title_ids_unique. all_different.
  - reflexivity.
Defined.

(** C2, as the spec has it, fails: with gta5 installed and rdr2 not, the
    second of two presence-refresh passes in a row is not silent; it notifies
    the host of both titles again. *)
Lemma second_presence_pass_notifies_again :
  ~ second_run_is_silent two_titles gta5_installed_nothing_alive fresh_plugin.
Proof. unfold second_run_is_silent. vm_compute. discriminate. Qed.

(* ------------------------------------------------------------------------- *)
(** ** Ticks: the in-progress flags *)

Lemma state_of_bind_modify {S B} (f : S -> S) (k : unit -> M S B) (st : S) :
  state_of (bind (modify f) k st) = state_of (k tt (f st)).
Proof. unfold bind, modify, state_of. now destruct (k tt (f st)) as [[? ?] ?]. Qed.

Lemma check_for_new_games_raises_flag gc auth lf st :
  checking_for_new_games (state_of (check_for_new_games gc auth lf st)) = true.
Proof.
  unfold check_for_new_games. rewrite state_of_bind_modify.
  match goal with
  | |- checking_for_new_games (state_of (?m ?s0)) = true =>
      apply (fun H : preserves (fun x => checking_for_new_games x = true) m => H s0 eq_refl)
  end.
  apply preserves_bind; [apply preserves_get|]. intros st0.
  apply preserves_bind; [apply get_owned_games_preserves; trivial|]. intros _.
  apply preserves_bind; [apply preserves_get|]. intros st1.
  apply add_new_games_preserves.
Qed.

Lemma check_for_new_games_keeps_other_flag gc auth lf st :
  updating_game_statuses (state_of (check_for_new_games gc auth lf st))
  = updating_game_statuses st.
Proof.
  apply (@check_for_new_games_preserves gc
           (fun s => updating_game_statuses s = updating_game_statuses st));
    trivial.
Qed.

Lemma check_game_statuses_raises_flag gc env st :
  updating_game_statuses (state_of (check_game_statuses gc env st)) = true.
Proof.
  unfold check_game_statuses. rewrite state_of_bind_modify.
  match goal with
  | |- updating_game_statuses (state_of (?m ?s0)) = true =>
      apply (fun H : preserves (fun x => updating_game_statuses x = true) m => H s0 eq_refl)
  end.
  apply preserves_bind; [apply get_local_games_preserves; trivial|]. intros lgs.
  apply preserves_for_each. intros; apply preserves_emit.
Qed.

Lemma check_game_statuses_keeps_other_flag gc env st :
  checking_for_new_games (state_of (check_game_statuses gc env st))
  = checking_for_new_games st.
Proof.
  apply (@check_game_statuses_preserves gc env
           (fun s => checking_for_new_games s = checking_for_new_games st));
    trivial.
Qed.

Lemma tick_creates (st : Plugin) :
  exists ev,
    tick st = (st, ev,
               Ok ((if negb (checking_for_new_games st) then [CheckForNewGames] else []) ++
                   (if negb (updating_game_statuses st) then [CheckGameStatuses] else []))).
Proof.
  unfold tick, bind, get, log, emit, ret.
  destruct (checking_for_new_games st), (updating_game_statuses st); cbn; eauto.
Qed.

(* ------------------------------------------------------------------------- *)
(** ** Ticks: counting tasks *)

Lemma count_set_phase (f : Task -> bool) (p : Phase) (ts : list Task) :
  forall i t,
    nth_error ts i = Some t ->
    List.length (filter f (set_phase i p ts)) + (if f t then 1 else 0)
    = List.length (filter f ts) + (if f (mkTask (coroutine t) p) then 1 else 0).
Proof.
  induction ts as [|t0 ts IH]; intros [|i] t H; cbn in H; try discriminate.
  - injection H as ->. cbn. destruct (f t), (f (mkTask (coroutine t) p)); cbn; lia.
  - cbn. specialize (IH i t H). destruct (f t0); cbn; lia.
Qed.

Lemma count_app (f : Task -> bool) (ts new : list Task) :
  List.length (filter f (ts ++ new))
  = List.length (filter f ts) + List.length (filter f new).
Proof. now rewrite filter_app, length_app. Qed.

Lemma started_is_in_flight c t : started c t = true -> in_flight c t = true.
Proof. unfold started. now intros [H _]%andb_prop. Qed.

Lemma count_started_le (c : Coroutine) (ts : list Task) :
  List.length (filter (started c) ts) <= List.length (filter (in_flight c) ts).
Proof.
  induction ts as [|t ts IH]; cbn; [lia|].
  destruct (started c t) eqn:E.
  - rewrite (started_is_in_flight _ _ E). cbn. lia.
  - destruct (in_flight c t); cbn; lia.
Qed.

Lemma all_started_when_none_created (c : Coroutine) (ts : list Task) :
  forallb (fun t => match phase t with Created => false | _ => true end) ts = true ->
  List.length (filter (in_flight c) ts) = List.length (filter (started c) ts).
Proof.
  induction ts as [|t ts IH]; cbn; [reflexivity|].
  intros [Ht Hts]%andb_prop. specialize (IH Hts).
  assert (E : in_flight c t = started c t).
  { unfold started, in_flight.
    destruct (coroutine t), c, (phase t); try discriminate; reflexivity. }
  rewrite E. destruct (started c t); cbn; lia.
Qed.

(* ------------------------------------------------------------------------- *)
(** ** Ticks: at most one pass of a kind in flight *)

Lemma tick_guarded gc l :
  passes_guarded l -> no_task_created l = true -> passes_guarded (step gc l Tick).
Proof.
  unfold passes_guarded. intros Hinv Hnone. cbn [step].
  destruct (tick_creates (plugin l)) as (ev & ->).
  destruct (Hinv CheckForNewGames) as [A1 B1].
  destruct (Hinv CheckGameStatuses) as [A2 B2].
  pose proof (all_started_when_none_created CheckForNewGames (tasks l) Hnone) as E1.
  pose proof (all_started_when_none_created CheckGameStatuses (tasks l) Hnone) as E2.
  unfold count_in_flight, count_started, in_progress in *.
  intros c. cbn [plugin tasks]. rewrite !count_app.
  destruct (checking_for_new_games (plugin l)) eqn:F1,
           (updating_game_statuses (plugin l)) eqn:F2;
    destruct c; cbn; rewrite ?F1, ?F2; split; intros; try discriminate;
      try specialize (B1 eq_refl); try specialize (B2 eq_refl); lia.
Qed.

Lemma resume_guarded gc l i w :
  passes_guarded l -> passes_guarded (step gc l (Resume i w)).
Proof.
  unfold passes_guarded. intros Hinv. cbn [step].
  destruct (nth_error (tasks l) i) as [t|] eqn:Hnth; [|exact Hinv].
  destruct (run_segment gc w t (plugin l)) as [[st ev] r] eqn:Hseg.
  assert (Hst : st = state_of (run_segment gc w t (plugin l))) by now rewrite Hseg.
  assert (Hr : r = result_of (run_segment gc w t (plugin l))) by now rewrite Hseg.
  clear Hseg.
  destruct (Hinv CheckForNewGames) as [A1 B1].
  destruct (Hinv CheckGameStatuses) as [A2 B2].
  set (p := next_phase (phase t) r).
  pose proof (count_set_phase (in_flight CheckForNewGames) p _ _ Hnth) as I1.
  pose proof (count_set_phase (in_flight CheckGameStatuses) p _ _ Hnth) as I2.
  pose proof (count_set_phase (started CheckForNewGames) p _ _ Hnth) as S1.
  pose proof (count_set_phase (started CheckGameStatuses) p _ _ Hnth) as S2.
  pose proof (count_started_le CheckForNewGames (set_phase i p (tasks l))) as L1.
  pose proof (count_started_le CheckGameStatuses (set_phase i p (tasks l))) as L2.
  unfold count_in_flight, count_started, in_progress in *.
  unfold run_segment in Hst, Hr. subst p.
  destruct t as [co ph]. cbn [coroutine phase] in *.
  destruct co, ph.
  - (* check_for_new_games starts *)
    pose proof (check_for_new_games_raises_flag gc (authenticated w) (log_file w) (plugin l)) as F.
    pose proof (check_for_new_games_keeps_other_flag gc (authenticated w) (log_file w) (plugin l)) as G.
    rewrite <- Hst in F, G.
    intros c. cbn [plugin tasks].
    destruct r; destruct c; cbn in *; rewrite ?F, ?G; split; intros; try discriminate;
      try specialize (B2 ltac:(assumption)); lia.
  - (* check_for_new_games ends *)
    cbn in Hst, Hr. subst st r.
    intros c. cbn [plugin tasks].
    destruct c; cbn in *; split; intros;
      try specialize (B2 ltac:(assumption)); lia.
  - cbn in Hst, Hr. subst st r. cbn [next_phase] in *.
    intros c. cbn [plugin tasks].
    destruct c; cbn in *; split; intros;
      try specialize (B1 ltac:(assumption)); try specialize (B2 ltac:(assumption)); lia.
  - cbn in Hst, Hr. subst st r. cbn [next_phase] in *.
    intros c. cbn [plugin tasks].
    destruct c; cbn in *; split; intros;
      try specialize (B1 ltac:(assumption)); try specialize (B2 ltac:(assumption)); lia.
  - (* check_game_statuses starts *)
    pose proof (check_game_statuses_raises_flag gc (collaborators w) (plugin l)) as F.
    pose proof (check_game_statuses_keeps_other_flag gc (collaborators w) (plugin l)) as G.
    rewrite <- Hst in F, G.
    intros c. cbn [plugin tasks].
    destruct r; destruct c; cbn in *; rewrite ?F, ?G; split; intros; try discriminate;
      try specialize (B1 ltac:(assumption)); lia.
  - (* check_game_statuses ends *)
    cbn in Hst, Hr. subst st r.
    intros c. cbn [plugin tasks].
    destruct c; cbn in *; split; intros;
      try specialize (B1 ltac:(assumption)); lia.
  - cbn in Hst, Hr. subst st r. cbn [next_phase] in *.
    intros c. cbn [plugin tasks].
    destruct c; cbn in *; split; intros;
      try specialize (B1 ltac:(assumption)); try specialize (B2 ltac:(assumption)); lia.
  - cbn in Hst, Hr. subst st r. cbn [next_phase] in *.
    intros c. cbn [plugin tasks].
    destruct c; cbn in *; split; intros;
      try specialize (B1 ltac:(assumption)); try specialize (B2 ltac:(assumption)); lia.
Qed.

Lemma spaced_run_guarded gc actions :
  forall l, passes_guarded l -> ticks_are_spaced gc l actions = true ->
            passes_guarded (run gc l actions).
Proof.
  unfold run. induction actions as [|a actions IH]; intros l Hinv Hsp; cbn in *; trivial.
  apply andb_prop in Hsp. destruct Hsp as [Ha Hsp].
  apply IH; trivial.
  destruct a as [|i w]; [now apply tick_guarded | now apply resume_guarded].
Qed.

Lemma spaced_prefix gc actions :
  forall l n, ticks_are_spaced gc l actions = true ->
              ticks_are_spaced gc l (firstn n actions) = true.
Proof.
  induction actions as [|a actions IH]; intros l [|n] H; cbn in *; trivial.
  apply andb_prop in H. destruct H as [Ha H].
  rewrite Ha. cbn. now apply IH.
Qed.

(** C10, as the code has it.  From the creation of the plugin on, in every
    schedule of ticks and task resumptions in which the event loop has given
    every task it registered control before the host calls [tick] again, at
    every moment at most one ownership-refresh task and at most one
    presence-refresh task is in flight, its sleep included, even if a pass
    ends by an exception. *)
Theorem spaced_ticks_do_not_overlap
        (gc : Catalog) (st0 : Plugin) (actions : list Action) (n : nat) (c : Coroutine) :
  init gc = Ok st0 ->
  ticks_are_spaced gc (start st0) actions = true ->
  count_in_flight c (run gc (start st0) (firstn n actions)) <= 1.
Proof.
  intros Hinit Hsp.
  destruct (init_returns gc) as (st0' & Hinit' & _ & _ & _ & F1 & F2).
  rewrite Hinit in Hinit'. injection Hinit' as <-.
  apply (@spaced_run_guarded gc (firstn n actions) (start st0)).
  - intros c'. unfold count_in_flight, count_started. cbn. split; [lia | reflexivity].
  - now apply spaced_prefix.
Qed.

Lemma spaced_ticks_do_not_overlap_witness :
  count_in_flight CheckForNewGames
    (run two_titles (start fresh_plugin)
         (firstn 7 [Tick; Resume 0 both_owned; Resume 1 both_owned; Tick;
                    Resume 0 both_owned; Tick; Resume 2 both_owned])) <= 1.
Proof.
  apply (@spaced_ticks_do_not_overlap two_titles fresh_plugin
           [Tick; Resume 0 both_owned; Resume 1 both_owned; Tick;
            Resume 0 both_owned; Tick; Resume 2 both_owned] 7 CheckForNewGames).
  - reflexivity.
  - vm_compute. reflexivity.
Defined.

(** C10, as the spec has it, fails for two ticks with nothing in between:
    neither task of the first tick has started when the second tick reads the
    flags, so each tick registers an ownership-refresh task, and once the
    loop has started both, two ownership-refresh passes are asleep at the same
    time. *)
Lemma two_ticks_in_a_row_overlap :
  let l := run two_titles (start fresh_plugin)
               [Tick; Tick; Resume 0 both_owned; Resume 2 both_owned] in
  init two_titles = Ok fresh_plugin /\
  count_started CheckForNewGames l = 2 /\
  ~ count_in_flight CheckForNewGames l <= 1.
Proof.
  assert (H : count_in_flight CheckForNewGames
                (run two_titles (start fresh_plugin)
                     [Tick; Tick; Resume 0 both_owned; Resume 2 both_owned]) = 2)
    by (vm_compute; reflexivity).
  cbn zeta. rewrite H. split; [reflexivity|]. split; [vm_compute; reflexivity | lia].
Qed.

(* ------------------------------------------------------------------------- *)
(** ** Ticks: a pass that ends by an exception *)

Lemma stuck_step gc l a : ownership_refresh_stuck l -> ownership_refresh_stuck (step gc l a).
Proof.
  unfold ownership_refresh_stuck, count_in_flight. intros [Hflag Hnone].
  destruct a as [|i w]; cbn [step].
  - destruct (tick_creates (plugin l)) as (ev & ->). cbn [plugin tasks].
    rewrite Hflag, count_app, Hnone. split; [reflexivity|].
    cbn. now destruct (updating_game_statuses (plugin l)).
  - destruct (nth_error (tasks l) i) as [t|] eqn:Hnth; [|now split].
    destruct (run_segment gc w t (plugin l)) as [[st ev] r] eqn:Hseg.
    assert (Hst : st = state_of (run_segment gc w t (plugin l))) by now rewrite Hseg.
    clear Hseg. cbn [plugin tasks].
    pose proof (count_set_phase (in_flight CheckForNewGames)
                                (next_phase (phase t) r) _ _ Hnth) as Hcount.
    assert (Ht : in_flight CheckForNewGames t = false).
    { destruct (in_flight CheckForNewGames t) eqn:E; trivial.
      exfalso. clear Hcount. revert i Hnth.
      induction (tasks l) as [|t0 ts IH]; intros [|i] Hnth; cbn in Hnth; try discriminate.
      - injection Hnth as ->. cbn in Hnone. rewrite E in Hnone. discriminate.
      - cbn in Hnone. destruct (in_flight CheckForNewGames t0); [discriminate|].
        now apply (IH Hnone i). }
    rewrite Ht, Hnone in Hcount. unfold run_segment in Hst.
    destruct t as [co ph]. cbn [coroutine phase] in *.
    destruct co, ph; try discriminate Ht.
    + cbn in Hst. subst st. cbn in *. split; [trivial | lia].
    + cbn in Hst. subst st. cbn in *. split; [trivial | lia].
    + rewrite Hst, check_game_statuses_keeps_other_flag.
      destruct r; cbn in *; split; trivial; lia.
    + cbn in Hst. subst st. cbn in *. split; [trivial | lia].
    + cbn in Hst. subst st. cbn in *. split; [trivial | lia].
    + cbn in Hst. subst st. cbn in *. split; [trivial | lia].
Qed.

Lemma stuck_run gc actions :
  forall l, ownership_refresh_stuck l -> ownership_refresh_stuck (run gc l actions).
Proof.
  unfold run. induction actions as [|a actions IH]; intros l H; cbn [fold_left]; trivial.
  apply IH. now apply stuck_step.
Qed.

(** X3.  When an ownership-refresh task that is the only one of its kind in
    flight (as it is while ticks are spaced, C10) ends by an exception on its
    first run (a [KeyError] on a branch report of a title the catalog does
    not have, say), its in-progress flag stays up: whatever ticks and
    resumptions follow, spaced or not, no ownership-refresh task is in flight
    any more and none is registered again. *)
Theorem failed_ownership_pass_is_not_retried
        (gc : Catalog) (l : Loop) (i : nat) (w : World) (actions : list Action) :
  count_in_flight CheckForNewGames l <= 1 ->
  nth_error (tasks l) i = Some (mkTask CheckForNewGames Created) ->
  (exists e, result_of (check_for_new_games gc (authenticated w) (log_file w) (plugin l))
             = Raise e) ->
  let l' := run gc (step gc l (Resume i w)) actions in
  checking_for_new_games (plugin l') = true /\
  count_in_flight CheckForNewGames l' = 0.
Proof.
  intros Hle Hnth (e & Hraise) l'. apply stuck_run.
  unfold ownership_refresh_stuck. cbn [step]. rewrite Hnth.
  cbn [run_segment coroutine phase].
  pose proof (check_for_new_games_raises_flag gc (authenticated w) (log_file w) (plugin l))
    as Hflag.
  destruct (check_for_new_games gc (authenticated w) (log_file w) (plugin l))
    as [[st ev] r] eqn:Hrun.
  cbn [state_of result_of fst snd] in Hflag, Hraise. subst r.
  cbn [plugin tasks next_phase]. split; trivial.
  pose proof (count_set_phase (in_flight CheckForNewGames) Failed _ _ Hnth) as Hcount.
  unfold count_in_flight in *. cbn [in_flight coroutine phase] in Hcount.
  cbn [tasks]. lia.
Qed.

Lemma failed_ownership_pass_is_not_retried_witness :
  let l' := run two_titles
                (step two_titles (step two_titles (start fresh_plugin) Tick)
                      (Resume 0 unknown_title_reported))
                [Resume 1 unknown_title_reported; Resume 1 unknown_title_reported;
                 Tick; Tick] in
  checking_for_new_games (plugin l') = true /\
  count_in_flight CheckForNewGames l' = 0.
Proof.
  apply (@failed_ownership_pass_is_not_retried two_titles
           (step two_titles (start fresh_plugin) Tick) 0 unknown_title_reported
           [Resume 1 unknown_title_reported; Resume 1 unknown_title_reported; Tick; Tick]).
  - vm_compute. lia.
  - reflexivity.
  - exists KeyError. vm_compute. reflexivity.
Defined.

(* ------------------------------------------------------------------------- *)
(** ** Session: every way through [authenticate] and [pass_login_credentials] *)

Module LoginFacts.
Import Session.

(** What [authenticate] comes to once the stored cookies are installed (or
    could not be read): the first attempt, and the fallback. *)
Lemma authenticate_with_cookies (remote : Remote) (jar : list Cookie) (c : HttpClient) :
  exists cs,
    let c1 := mkHttpClient cs (auth_lost_callback c) (Datatypes.S (authenticate_calls c)) in
    let c2 := mkHttpClient cs true (Datatypes.S (Datatypes.S (authenticate_calls c))) in
    match remote (authenticate_calls c) with
    | Some user =>
        state_of (authenticate remote (Some (mkStored (Some jar))) c) = c1 /\
        result_of (authenticate remote (Some (mkStored (Some jar))) c)
        = Ok (Authentication (rockstar_id user) (display_name user))
    | None =>
        state_of (authenticate remote (Some (mkStored (Some jar))) c) = c2 /\
        result_of (authenticate remote (Some (mkStored (Some jar))) c)
        = match remote (Datatypes.S (authenticate_calls c)) with
          | Some user => Ok (Authentication (rockstar_id user) (display_name user))
          | None => Raise InvalidCredentials
          end
    end.
Proof.
  destruct (SessionFacts.install_cookies jar c) as (cs & Hcs). exists cs.
  unfold authenticate, try_except, bind, log, emit, ret, raise. cbn [cookie_jar].
  rewrite Hcs.
  unfold http_authenticate, set_auth_lost_callback, modify.
  cbn [authenticate_calls cookies auth_lost_callback].
  destruct (remote (authenticate_calls c)) as [user|]; cbn; [now split|].
  destruct (remote (Datatypes.S (authenticate_calls c))) as [user|]; cbn; now split.
Qed.

Lemma authenticate_without_cookies (remote : Remote) (c : HttpClient) :
  state_of (authenticate remote (Some (mkStored None)) c)
  = mkHttpClient (cookies c) true (Datatypes.S (authenticate_calls c)) /\
  result_of (authenticate remote (Some (mkStored None)) c)
  = match remote (authenticate_calls c) with
    | Some user => Ok (Authentication (rockstar_id user) (display_name user))
    | None => Raise InvalidCredentials
    end.
Proof.
  unfold authenticate, try_except, bind, log, emit, ret, raise. cbn [cookie_jar].
  unfold http_authenticate, set_auth_lost_callback, modify.
  cbn [authenticate_calls cookies auth_lost_callback].
  destruct (remote (authenticate_calls c)) as [user|]; cbn; now split.
Qed.

(** X4.  Whatever the stored credentials and the remote side, [authenticate]
    either returns or raises [InvalidCredentials], no other exception leaves
    it; it makes at most two identity calls, and none when there are no
    stored credentials. *)
Theorem authenticate_is_bounded
        (remote : Remote) (stored : option StoredCredentials) (c : HttpClient) :
  let outcome := authenticate remote stored c in
  (result_of outcome = Raise InvalidCredentials \/ exists a, result_of outcome = Ok a) /\
  authenticate_calls c <= authenticate_calls (state_of outcome)
  <= authenticate_calls c + 2 /\
  match stored with
  | None => state_of outcome = c /\ result_of outcome = Ok NextStep_web_session
  | Some _ => authenticate_calls c < authenticate_calls (state_of outcome)
  end.
Proof.
  destruct stored as [[[jar|]]|]; cbn zeta.
  - destruct (authenticate_with_cookies remote jar c) as (cs & H). cbn zeta in H.
    destruct (remote (authenticate_calls c)) as [user|]; destruct H as [Hs Hr];
      rewrite Hr, Hs.
    + cbn. repeat split; try lia. right. eauto.
    + cbn. repeat split; try lia.
      destruct (remote (Datatypes.S (authenticate_calls c))); [right; eauto | now left].
  - destruct (authenticate_without_cookies remote c) as [Hs Hr]. rewrite Hr, Hs.
    cbn. repeat split; try lia.
    destruct (remote (authenticate_calls c)); [right; eauto | now left].
  - cbn. repeat split; try lia. right. eauto.
Qed.

(** X5.  With stored cookies that can be read, a first identity call that
    succeeds is the only one made, and the lost-authentication callback is
    left as it was; the callback is registered exactly on the way through the
    fallback, after a first call that failed. *)
Theorem callback_is_registered_by_the_fallback
        (remote : Remote) (jar : list Cookie) (c : HttpClient) :
  let outcome := authenticate remote (Some (mkStored (Some jar))) c in
  match remote (authenticate_calls c) with
  | Some user =>
      result_of outcome = Ok (Authentication (rockstar_id user) (display_name user)) /\
      authenticate_calls (state_of outcome) = authenticate_calls c + 1 /\
      auth_lost_callback (state_of outcome) = auth_lost_callback c
  | None =>
      authenticate_calls (state_of outcome) = authenticate_calls c + 2 /\
      auth_lost_callback (state_of outcome) = true
  end.
Proof.
  cbn zeta. destruct (authenticate_with_cookies remote jar c) as (cs & H). cbn zeta in H.
  destruct (remote (authenticate_calls c)) as [user|]; destruct H as [Hs Hr];
    rewrite ?Hr, Hs; cbn; repeat split; lia.
Qed.

(** X6.  With stored credentials whose cookies cannot be read, [authenticate]
    installs no cookie and still makes one identity call, with the cookies
    the client already had: its success is the [Authentication] returned, its
    failure [InvalidCredentials]. *)
Theorem unreadable_cookies_still_try_once (remote : Remote) (c : HttpClient) :
  let outcome := authenticate remote (Some (mkStored None)) c in
  cookies (state_of outcome) = cookies c /\
  authenticate_calls (state_of outcome) = authenticate_calls c + 1 /\
  result_of outcome
  = match remote (authenticate_calls c) with
    | Some user => Ok (Authentication (rockstar_id user) (display_name user))
    | None => Raise InvalidCredentials
    end.
Proof.
  cbn zeta. destruct (authenticate_without_cookies remote c) as [Hs Hr].
  rewrite Hr, Hs. cbn. repeat split. lia.
Qed.




End LoginFacts.

(* ------------------------------------------------------------------------- *)
(** ** Friends *)

Module FriendsFacts.
Import Friends.

Lemma bind_ok_run {S A B} (m : M S A) (f : A -> M S B) (st st' : S) ev (b : B) :
  bind m f st = (st', ev, Ok b) ->
  exists st1 ev1 a ev2,
    m st = (st1, ev1, Ok a) /\ f a st1 = (st', ev2, Ok b) /\ ev = ev1 ++ ev2.
Proof.
  unfold bind. destruct (m st) as [[st1 ev1] [a|e]]; [|discriminate].
  destruct (f a st1) as [[st2 ev2] r] eqn:Hf. intros [= <- <- ->].
  now exists st1, ev1, a, ev2.
Qed.

Lemma is_cached_iff (friend : FriendInfo) (cache : list FriendInfo) :
  is_cached friend cache = true <-> In (user_id friend) (friend_ids cache).
Proof.
  unfold is_cached, friend_ids. rewrite existsb_exists, in_map_iff.
  split; intros (x & H1 & H2).
  - exists x. apply Z.eqb_eq in H2. now split.
  - exists x. split; trivial. now apply Z.eqb_eq.
Qed.

Lemma friend_ids_app (c1 c2 : list FriendInfo) :
  friend_ids (c1 ++ c2) = friend_ids c1 ++ friend_ids c2.
Proof. apply map_app. Qed.

(** The new friends of a page keep the ids of the cache pairwise different. *)
Lemma fresh_friends_distinct (accounts : list Account) :
  forall cache,
    NoDup (friend_ids cache) ->
    NoDup (friend_ids (cache ++ fresh_friends cache accounts)).
Proof.
  induction accounts as [|account accounts IH]; intros cache Hnd; cbn [fresh_friends].
  - now rewrite app_nil_r.
  - cbv zeta.
    destruct (is_cached (mkFriendInfo (rockstarId account) (displayName account)) cache)
      eqn:E.
    + now apply IH.
    + replace (cache ++ mkFriendInfo (rockstarId account) (displayName account)
                     :: fresh_friends (cache ++ [mkFriendInfo (rockstarId account)
                                                              (displayName account)])
                          accounts)
        with ((cache ++ [mkFriendInfo (rockstarId account) (displayName account)])
                ++ fresh_friends (cache ++ [mkFriendInfo (rockstarId account)
                                                         (displayName account)])
                     accounts)
        by (now rewrite <- app_assoc).
      apply IH. rewrite friend_ids_app. cbn.
      apply NoDup_app; [exact Hnd | repeat constructor; intros [] |].
      * intros x Hx [<-|[]].
        assert (is_cached (mkFriendInfo (rockstarId account) (displayName account)) cache
                = true) by now apply is_cached_iff.
        congruence.
Qed.

(** ... and bring the id of every account of the page into the cache. *)
Lemma fresh_friends_cover (accounts : list Account) :
  forall cache account,
    In account accounts ->
    In (rockstarId account) (friend_ids (cache ++ fresh_friends cache accounts)).
Proof.
  induction accounts as [|a accounts IH]; intros cache account Hin; [contradiction|].
  cbn [fresh_friends]. cbv zeta.
  destruct (is_cached (mkFriendInfo (rockstarId a) (displayName a)) cache) eqn:E.
  - destruct Hin as [->|Hin]; [|now apply IH].
    rewrite friend_ids_app. apply in_or_app. left.
    now apply is_cached_iff in E.
  - replace (cache ++ mkFriendInfo (rockstarId a) (displayName a)
                   :: fresh_friends (cache ++ [mkFriendInfo (rockstarId a) (displayName a)])
                        accounts)
      with ((cache ++ [mkFriendInfo (rockstarId a) (displayName a)])
              ++ fresh_friends (cache ++ [mkFriendInfo (rockstarId a) (displayName a)])
                   accounts)
      by (now rewrite <- app_assoc).
    destruct Hin as [->|Hin]; [|now apply IH].
    rewrite friend_ids_app. apply in_or_app. left.
    rewrite friend_ids_app. apply in_or_app. right. now left.
Qed.

Lemma bind_step {S A B} (m : M S A) (f : A -> M S B) (st st1 st2 : S) ev1 ev2 a r :
  m st = (st1, ev1, Ok a) -> f a st1 = (st2, ev2, r) ->
  bind m f st = (st2, ev1 ++ ev2, r).
Proof. intros Hm Hf. unfold bind. now rewrite Hm, Hf. Qed.

(** The loop over a page never raises; it appends the new friends of the page
    to the cache, calls [add_friend] for each of them, and appends the class
    [FriendInfo] to its list once per account. *)
Lemma accounts_loop_run (accounts : list Account) :
  forall return_list st,
  exists ev,
    accounts_loop accounts return_list st
    = (mkState (friends_cache st ++ fresh_friends (friends_cache st) accounts)
               (added st ++ fresh_friends (friends_cache st) accounts)
               (requested st),
       ev,
       Ok (return_list ++ repeat FriendInfo_class (List.length accounts))).
Proof.
  induction accounts as [|account accounts IH]; intros return_list st.
  - exists []. cbn. rewrite !app_nil_r. now destruct st.
  - cbn [accounts_loop fresh_friends List.length repeat]. cbv zeta.
    set (friend := mkFriendInfo (rockstarId account) (displayName account)).
    destruct (is_cached friend (friends_cache st)) eqn:E.
    + destruct (IH (return_list ++ [FriendInfo_class]) st) as (ev & Hrec).
      eexists. eapply bind_step; [reflexivity|]. cbv beta. rewrite E.
      eapply bind_step; [reflexivity|]. eapply bind_step; [reflexivity|].
      rewrite Hrec. now rewrite <- app_assoc.
    + destruct (IH (return_list ++ [FriendInfo_class])
                   (mkState (friends_cache st ++ [friend]) (added st ++ [friend])
                            (requested st))) as (ev & Hrec).
      eexists. eapply bind_step; [reflexivity|]. cbv beta. rewrite E.
      eapply bind_step; [reflexivity|]. eapply bind_step; [reflexivity|].
      cbn [friends_cache added requested friends_cache_append]. rewrite Hrec.
      cbn [friends_cache added requested]. now rewrite <- !app_assoc.
Qed.

Lemma request_run (remote : Remote) (i : Z) (st : State) :
  get_json_from_request_strict remote i st
  = (mkState (friends_cache st) (added st) (requested st ++ [i]), [], remote i).
Proof. reflexivity. Qed.

Section FriendsFrames.

Variable remote : Remote.
Variable P : State -> Prop.

Hypothesis request_ok :
  forall st i, P st -> P (mkState (friends_cache st) (added st) (requested st ++ [i])).

Hypothesis page_ok :
  forall st accounts,
    P st ->
    P (mkState (friends_cache st ++ fresh_friends (friends_cache st) accounts)
               (added st ++ fresh_friends (friends_cache st) accounts)
               (requested st)).

Lemma accounts_loop_preserves accounts return_list :
  preserves P (accounts_loop accounts return_list).
Proof.
  intros st HP. destruct (accounts_loop_run accounts return_list st) as (ev & ->).
  now apply page_ok.
Qed.

Lemma _get_friends_preserves i : preserves P (_get_friends remote i).
Proof.
  unfold _get_friends. apply preserves_bind.
  - intros st HP. rewrite request_run. now apply request_ok.
  - intros page. apply accounts_loop_preserves.
Qed.

Lemma further_pages_loop_preserves pages :
  forall return_list, preserves P (further_pages_loop remote pages return_list).
Proof.
  induction pages as [|i pages IH]; intros return_list; cbn [further_pages_loop].
  - apply preserves_ret.
  - apply preserves_bind; [apply _get_friends_preserves | intros friends; apply IH].
Qed.

Lemma get_friends_preserves : preserves P (get_friends remote).
Proof.
  unfold get_friends. apply preserves_bind.
  - intros st HP. rewrite request_run. now apply request_ok.
  - intros page. apply preserves_bind; [apply preserves_log|]. intros _.
    apply preserves_bind; [apply preserves_lift|]. intros required.
    apply preserves_bind; [apply accounts_loop_preserves|]. intros return_list.
    apply preserves_bind; [apply preserves_lift|]. intros pages.
    apply further_pages_loop_preserves.
Qed.

End FriendsFrames.

(** X8.  [get_friends] keeps the user ids of [friends_cache] pairwise
    different, whatever the pages hold (the same account twice on a page or
    on two pages, accounts cached before) and whether it returns or a request
    raises half way. *)
Theorem friend_ids_stay_distinct (remote : Remote) (st : State) :
  NoDup (friend_ids (friends_cache st)) ->
  NoDup (friend_ids (friends_cache (state_of (get_friends remote st)))).
Proof.
  apply (@get_friends_preserves remote
           (fun s => NoDup (friend_ids (friends_cache s)))).
  - intros s i H. exact H.
  - intros s accounts H. cbn [friends_cache]. now apply fresh_friends_distinct.
Qed.

Lemma friend_ids_stay_distinct_witness :
  NoDup (friend_ids (friends_cache (state_of (get_friends two_pages no_friends_yet)))).
Proof.
  apply (@friend_ids_stay_distinct two_pages no_friends_yet). constructor.
Defined.

(** X9.  [get_friends] never drops or reorders a cached friend: the cache it
    leaves is the cache it found followed by new friends, and [add_friend]
    has been called for exactly these new friends, once each and in that
    order, also when a request raises half way. *)
Theorem added_friends_are_the_new_entries (remote : Remote) (st : State) :
  exists news,
    friends_cache (state_of (get_friends remote st)) = friends_cache st ++ news /\
    added (state_of (get_friends remote st)) = added st ++ news.
Proof.
  apply (@get_friends_preserves remote (cache_grew_by_added st)).
  - intros s i (news & H1 & H2). now exists news.
  - intros s accounts (news & H1 & H2).
    exists (news ++ fresh_friends (friends_cache s) accounts). cbn [friends_cache added].
    rewrite H1, H2 at 1. now rewrite !app_assoc.
  - exists []. now rewrite !app_nil_r.
Qed.

Lemma cache_grew_trans (st1 st2 st3 : State) :
  cache_grew_by_added st1 st2 -> cache_grew_by_added st2 st3 ->
  cache_grew_by_added st1 st3.
Proof.
  intros (n1 & A1 & B1) (n2 & A2 & B2). exists (n1 ++ n2).
  rewrite A2, B2, A1, B1. now rewrite !app_assoc.
Qed.

Lemma _get_friends_ok (remote : Remote) (i : Z) (st st' : State) ev friends :
  _get_friends remote i st = (st', ev, Ok friends) ->
  exists page,
    remote i = Ok page /\
    requested st' = requested st ++ [i] /\
    friends = repeat FriendInfo_class (List.length (rockstarAccounts page)) /\
    page_is_cached remote i (friends_cache st') /\
    cache_grew_by_added st st'.
Proof.
  unfold _get_friends. intros H.
  apply bind_ok_run in H. destruct H as (st1 & ev1 & page & ev2 & Hreq & Hloop & _).
  rewrite request_run in Hreq. injection Hreq as <- _ Hpage.
  destruct (accounts_loop_run (rockstarAccounts page) []
              (mkState (friends_cache st) (added st) (requested st ++ [i])))
    as (ev' & Hrun).
  rewrite Hrun in Hloop. injection Hloop as <- _ <-.
  cbn [friends_cache added requested] in *.
  exists page. repeat split; trivial.
  - intros page' account Hpage' Hin. rewrite Hpage in Hpage'. injection Hpage' as <-.
    cbn [friends_cache]. now apply fresh_friends_cover.
  - eexists. cbn [friends_cache added]. split; reflexivity.
Qed.

Lemma page_stays_cached (remote : Remote) (i : Z) (st st' : State) :
  cache_grew_by_added st st' ->
  page_is_cached remote i (friends_cache st) ->
  page_is_cached remote i (friends_cache st').
Proof.
  intros (news & H & _) Hc page account Hp Hin. rewrite H, friend_ids_app.
  apply in_or_app. left. eapply Hc; eauto.
Qed.

Lemma further_pages_loop_ok (remote : Remote) (pages : list Z) :
  forall return_list st st' ev l,
    further_pages_loop remote pages return_list st = (st', ev, Ok l) ->
    requested st' = requested st ++ pages /\
    (exists gens, l = return_list ++ gens /\
                  List.length gens = List.length pages /\
                  Forall generator_of_classes gens) /\
    (forall i, In i pages -> page_is_cached remote i (friends_cache st')) /\
    cache_grew_by_added st st'.
Proof.
  induction pages as [|i pages IH]; intros return_list st st' ev l H.
  - cbn in H. injection H as <- _ <-. repeat split.
    + now rewrite app_nil_r.
    + exists []. rewrite app_nil_r. repeat split. constructor.
    + intros i [].
    + exists []. now rewrite !app_nil_r.
  - cbn [further_pages_loop] in H. apply bind_ok_run in H.
    destruct H as (st1 & ev1 & friends & ev2 & Hget & Hrest & _).
    apply _get_friends_ok in Hget.
    destruct Hget as (page & Hpage & Hreq & -> & Hcached & Hgrew).
    apply IH in Hrest. destruct Hrest as (Hreq' & (gens & -> & Hlen & Hgens) & Hpages & Hgrew').
    repeat split.
    + rewrite Hreq', Hreq, <- app_assoc. reflexivity.
    + exists (generator (repeat FriendInfo_class (List.length (rockstarAccounts page)))
                :: gens).
      rewrite <- app_assoc. repeat split.
      * cbn. now rewrite Hlen.
      * constructor; trivial. now eexists.
    + intros j [<-|Hj]; [|now apply Hpages].
      eapply page_stays_cached; eauto.
    + eapply cache_grew_trans; eauto.
Qed.

(** What a call of [get_friends] that returns has done. *)
Lemma get_friends_ok (remote : Remote) (st st' : State) ev l :
  get_friends remote st = (st', ev, Ok l) ->
  exists page required pages,
    remote 0%Z = Ok page /\
    num_pages_required (totalFriends page) = Ok required /\
    further_pages required = Ok pages /\
    requested st' = requested st ++ 0%Z :: pages /\
    (exists gens,
        l = repeat FriendInfo_class (List.length (rockstarAccounts page)) ++ gens /\
        List.length gens = List.length pages /\
        Forall generator_of_classes gens) /\
    (forall i, In i (0%Z :: pages) -> page_is_cached remote i (friends_cache st')).
Proof.
  unfold get_friends. intros H.
  apply bind_ok_run in H. destruct H as (st1 & ev1 & page & ev2 & Hreq & H & _).
  rewrite request_run in Hreq. injection Hreq as <- _ Hpage.
  apply bind_ok_run in H. destruct H as (st2 & ev3 & [] & ev4 & Hlog & H & _).
  injection Hlog as <- _.
  apply bind_ok_run in H. destruct H as (st3 & ev5 & required & ev6 & Hdiv & H & _).
  unfold lift in Hdiv. injection Hdiv as <- _ Hrequired.
  apply bind_ok_run in H. destruct H as (st4 & ev7 & return_list & ev8 & Hloop & H & _).
  destruct (accounts_loop_run (rockstarAccounts page) []
              (mkState (friends_cache st) (added st) (requested st ++ [0%Z])))
    as (ev' & Hrun).
  rewrite Hrun in Hloop. injection Hloop as <- _ <-.
  apply bind_ok_run in H. destruct H as (st5 & ev9 & pages & ev10 & Hrange & H & _).
  unfold lift in Hrange. injection Hrange as <- _ Hpages.
  apply further_pages_loop_ok in H.
  destruct H as (Hreq & (gens & -> & Hlen & Hgens) & Hcached & Hgrew).
  cbn [friends_cache added requested] in *.
  exists page, required, pages. repeat split; trivial.
  - rewrite Hreq, <- app_assoc. reflexivity.
  - exists gens. now repeat split.
  - intros i [<-|Hi]; [|now apply Hcached].
    apply (page_stays_cached Hgrew).
    intros page' account Hpage' Hin. rewrite Hpage in Hpage'. injection Hpage' as <-.
    cbn [friends_cache]. now apply fresh_friends_cover.
Qed.

(** X10.  When [get_friends] returns, it has requested page 0 and then the
    pages of its second loop, and the user id of every account of every page
    it requested is in [friends_cache]. *)
Theorem requested_pages_are_cached (remote : Remote) (st : State) (l : list PyValue) :
  result_of (get_friends remote st) = Ok l ->
  exists pages,
    requested (state_of (get_friends remote st)) = requested st ++ 0%Z :: pages /\
    forall i, In i (0%Z :: pages) ->
              page_is_cached remote i (friends_cache (state_of (get_friends remote st))).
Proof.
  destruct (get_friends remote st) as [[st' ev] r] eqn:H. cbn. intros ->.
  apply get_friends_ok in H.
  destruct H as (page & required & pages & _ & _ & _ & Hreq & _ & Hcached).
  now exists pages.
Qed.

Lemma requested_pages_are_cached_witness :
  exists pages,
    requested (state_of (get_friends two_pages no_friends_yet))
    = requested no_friends_yet ++ 0%Z :: pages /\
    forall i, In i (0%Z :: pages) ->
              page_is_cached two_pages i
                (friends_cache (state_of (get_friends two_pages no_friends_yet))).
Proof.
  apply (@requested_pages_are_cached two_pages no_friends_yet
           [FriendInfo_class; FriendInfo_class;
            generator [FriendInfo_class; FriendInfo_class]]).
  vm_compute. reflexivity.
Defined.

(** X11.  The list [get_friends] returns holds no friend record: it is the
    class [FriendInfo] itself, once per account of the first page, followed
    by one generator per page requested after the first, each over class
    objects only. *)
Theorem get_friends_returns_no_friend (remote : Remote) (st : State) (l : list PyValue) :
  result_of (get_friends remote st) = Ok l ->
  exists page pages gens,
    remote 0%Z = Ok page /\
    requested (state_of (get_friends remote st)) = requested st ++ 0%Z :: pages /\
    l = repeat FriendInfo_class (List.length (rockstarAccounts page)) ++ gens /\
    List.length gens = List.length pages /\
    Forall generator_of_classes gens.
Proof.
  destruct (get_friends remote st) as [[st' ev] r] eqn:H. cbn. intros ->.
  apply get_friends_ok in H.
  destruct H as (page & required & pages & Hpage & _ & _ & Hreq
                 & (gens & Hl & Hlen & Hgens) & _).
  now exists page, pages, gens.
Qed.

Lemma get_friends_returns_no_friend_witness :
  exists page pages gens,
    two_pages 0%Z = Ok page /\
    requested (state_of (get_friends two_pages no_friends_yet))
    = requested no_friends_yet ++ 0%Z :: pages /\
    [FriendInfo_class; FriendInfo_class; generator [FriendInfo_class; FriendInfo_class]]
    = repeat FriendInfo_class (List.length (rockstarAccounts page)) ++ gens /\
    List.length gens = List.length pages /\
    Forall generator_of_classes gens.
Proof.
  apply (@get_friends_returns_no_friend two_pages no_friends_yet).
  vm_compute. reflexivity.
Defined.

Lemma all_from_true (f : Z -> bool) (count : nat) :
  forall start,
    all_from start count f = true ->
    forall n : Z, (start <= n < start + Z.of_nat count)%Z -> f n = true.
Proof.
  induction count as [|count IH]; cbn [all_from]; intros start H n Hn; [lia|].
  apply andb_prop in H. destruct H as [Hfirst Hrest].
  destruct (Z.eq_dec n start) as [->|Hne]; trivial.
  apply (IH (start + 1)%Z); trivial. lia.
Qed.

Lemma range_empty (start stop : Z) : (stop <= start)%Z -> range start stop = [].
Proof. intros H. unfold range. now replace (Z.to_nat (stop - start)) with 0 by lia. Qed.

Lemma further_pages_when_agreeing (num_friends : Z) :
  further_pages_agree num_friends = true ->
  exists required,
    num_pages_required num_friends = Ok required /\
    further_pages required = Ok (range 1 (pages_of num_friends)).
Proof.
  unfold further_pages_agree, further_pages.
  destruct (num_pages_required num_friends) as [required|e]; [|discriminate].
  intros H. exists required. split; trivial.
  destruct (float_is_positive required).
  - destruct (int_of_float (float_add required float_1)) as [stop|e]; [|discriminate].
    apply Z.eqb_eq in H. now rewrite H.
  - apply Z.leb_le in H. now rewrite range_empty.
Qed.

(** The float arithmetic of [get_friends] gives the right number of pages for
    every count of friends up to 10000. *)
Lemma further_pages_up_to_10000 (num_friends : Z) :
  (0 <= num_friends <= 10000)%Z ->
  exists required,
    num_pages_required num_friends = Ok required /\
    further_pages required = Ok (range 1 (pages_of num_friends)).
Proof.
  intros H. apply further_pages_when_agreeing.
  apply (@all_from_true further_pages_agree (Z.to_nat 10001) 0%Z).
  - vm_compute. reflexivity.
  - rewrite Z2Nat.id; lia.
Qed.

(** The division rounds the exact quotient once: [10**23 / 1] is the float
    next below 10^23, the quotient half way between the largest float and
    2^1024 overflows, and the one just below it does not. *)
Example int_true_divide_rounds_once :
  int_true_divide (10 ^ 23) 1 = Ok (SpecFloat.S754_finite false 5960464477539062 24) /\
  int_true_divide ((2 ^ 1024 - 2 ^ 970) * 30 - 1) 30
  = Ok (SpecFloat.S754_finite false 9007199254740991 971) /\
  int_true_divide ((2 ^ 1024 - 2 ^ 970) * 30) 30 = Raise OtherError.
Proof. vm_compute. repeat split. Qed.

(** Beyond 2^53 the quotient is rounded and the count is no longer exact:
    for 2^63 + 31 friends the second loop stops 6 pages early. *)
Example further_pages_of_a_long_count :
  exists required,
    num_pages_required (2 ^ 63 + 31) = Ok required /\
    float_is_positive required = true /\
    int_of_float (float_add required float_1) = Ok 307445734561825856%Z /\
    pages_of (2 ^ 63 + 31) = 307445734561825862%Z.
Proof. eexists. vm_compute. repeat split. Qed.

(** A count whose thirtieth is beyond the largest float ends [get_friends]
    by the [OverflowError] of the division, after the request of page 0 and
    before any friend is cached. *)
Example get_friends_of_an_overlong_count :
  let remote := fun _ : Z => Ok (mkPage (30 * 2 ^ 1024) [mkAccount 101 "niko"]) in
  get_friends remote no_friends_yet
  = (mkState [] [] [0%Z], [Log LDebug "ROCKSTAR_FRIENDS_REQUEST: "], Raise OtherError).
Proof. vm_compute. reflexivity. Qed.

(** X12.  When [get_friends] returns and the first page announces between 0
    and 10000 friends, it has requested the pages 0, 1, ..., one page per 30
    friends announced (rounded up) and page 0 alone for no friend, each once
    and in this order. *)
Theorem get_friends_requests_each_page_once
        (remote : Remote) (st : State) (l : list PyValue) (page : Page) :
  result_of (get_friends remote st) = Ok l ->
  remote 0%Z = Ok page ->
  (0 <= totalFriends page <= 10000)%Z ->
  requested (state_of (get_friends remote st))
  = requested st ++ 0%Z :: range 1 ((totalFriends page + 29) / 30).
Proof.
  destruct (get_friends remote st) as [[st' ev] r] eqn:H. cbn. intros -> Hpage Hn.
  apply get_friends_ok in H.
  destruct H as (page' & required & pages & Hpage' & Hrequired & Hpages & Hreq & _).
  rewrite Hpage in Hpage'. injection Hpage' as <-.
  destruct (further_pages_up_to_10000 Hn) as (required' & Hrequired' & Hpages').
  rewrite Hrequired in Hrequired'. injection Hrequired' as <-.
  rewrite Hpages in Hpages'. injection Hpages' as ->.
  rewrite Hreq. reflexivity.
Qed.

Lemma get_friends_requests_each_page_once_witness :
  requested (state_of (get_friends two_pages no_friends_yet))
  = requested no_friends_yet ++ 0%Z :: range 1 ((31 + 29) / 30).
Proof.
  apply (@get_friends_requests_each_page_once two_pages no_friends_yet
           [FriendInfo_class; FriendInfo_class;
            generator [FriendInfo_class; FriendInfo_class]]
           (mkPage 31 [mkAccount 101 "niko"; mkAccount 102 "roman"])).
  - vm_compute. reflexivity.
  - reflexivity.
  - cbn. lia.
Defined.

End FriendsFacts.

(* ------------------------------------------------------------------------- *)
(** ** Ownership detector: what a call does to the cache and tells the host *)

(** One turn of the scan loop, spelled out. *)
Lemma scan_line_run gc line c ids st :
  scan_line gc line c ids st
  = if is_branch_report line then
      match create_game_from_title_id gc (title_id_of_line line) with
      | Ok g =>
          (if game_in g (owned_games st) then st else owned_games_cache_append g st,
           [Log LDebug "ROCKSTAR_OWNED_GAME"],
           Ok (Datatypes.S c, ids ++ [title_id_of_line line]))
      | Raise e => (st, [Log LDebug "ROCKSTAR_OWNED_GAME"], Raise e)
      end
    else if PyStr.contains no_branches_marker line then (st, [], Ok (Datatypes.S c, ids))
    else (st, [], Ok (c, ids)).
Proof.
  unfold scan_line, is_branch_report.
  destruct (negb (PyStr.contains launcher_marker line) &&
            PyStr.contains on_branch_marker line).
  - unfold bind, log, emit, lift, get, modify, ret.
    destruct (create_game_from_title_id gc (title_id_of_line line)) as [g|e];
      [|reflexivity].
    destruct (game_in g (owned_games st)); reflexivity.
  - destruct (PyStr.contains no_branches_marker line); reflexivity.
Qed.

Lemma game_in_iff (g : Game) (games : list Game) : game_in g games = true <-> In g games.
Proof. unfold game_in. destruct (in_dec Game_eq_dec g games); split; congruence. Qed.

(** The scan only appends to the cache. *)
Lemma scan_only_appends gc total frb c ids st :
  exists added,
    owned_games (state_of (scan gc total frb c ids st)) = owned_games st ++ added.
Proof.
  apply (@scan_preserves gc (fun s => exists added, owned_games s = owned_games st ++ added)).
  - intros g _ s (added & H). exists (added ++ [g]).
    now rewrite owned_games_append, H, app_assoc.
  - exists []. now rewrite app_nil_r.
Qed.

(** A scan over a cache that already holds every game the scan would append
    leaves the cache alone, and writes and answers the same. *)
Lemma scan_absorbed gc total frb :
  forall c ids st st',
    (forall g, In g (owned_games (state_of (scan gc total frb c ids st))) ->
               In g (owned_games st')) ->
    scan gc total frb c ids st'
    = (st', events_of (scan gc total frb c ids st), result_of (scan gc total frb c ids st)).
Proof.
  induction frb as [|line frb IH]; intros c ids st st' Hsub; [reflexivity|].
  cbn [scan] in *.
  assert (Htail : forall (locals : nat * list str) st1 ev1,
    (forall g,
        In g (owned_games
                (state_of ((if Nat.eqb (fst locals) total
                            then ret (fst locals, snd locals, frb)
                            else scan gc total frb (fst locals) (snd locals)) st1))) ->
        In g (owned_games st')) ->
    (state_of ((if Nat.eqb (fst locals) total
                then ret (fst locals, snd locals, frb)
                else scan gc total frb (fst locals) (snd locals)) st'),
     ev1 ++ events_of ((if Nat.eqb (fst locals) total
                        then ret (fst locals, snd locals, frb)
                        else scan gc total frb (fst locals) (snd locals)) st'),
     result_of ((if Nat.eqb (fst locals) total
                 then ret (fst locals, snd locals, frb)
                 else scan gc total frb (fst locals) (snd locals)) st'))
    = (st',
       ev1 ++ events_of ((if Nat.eqb (fst locals) total
                          then ret (fst locals, snd locals, frb)
                          else scan gc total frb (fst locals) (snd locals)) st1),
       result_of ((if Nat.eqb (fst locals) total
                   then ret (fst locals, snd locals, frb)
                   else scan gc total frb (fst locals) (snd locals)) st1))).
  { intros locals st1 ev1 H. destruct (Nat.eqb (fst locals) total); [reflexivity|].
    now rewrite (IH _ _ st1 st' H). }
  assert (Hmono : forall (locals : nat * list str) st1 g,
    In g (owned_games st1) ->
    In g (owned_games
            (state_of ((if Nat.eqb (fst locals) total
                        then ret (fst locals, snd locals, frb)
                        else scan gc total frb (fst locals) (snd locals)) st1)))).
  { intros locals st1 g Hg. destruct (Nat.eqb (fst locals) total); [exact Hg|].
    destruct (scan_only_appends gc total frb (fst locals) (snd locals) st1) as (added & ->).
    apply in_or_app. now left. }
  pose proof (scan_line_run gc line c ids st) as E1.
  pose proof (scan_line_run gc line c ids st') as E1'.
  destruct (is_branch_report line).
  - destruct (create_game_from_title_id gc (title_id_of_line line)) as [g|e].
    + rewrite (bind_run _ _ st E1) in Hsub |- *.
      cbn [state_of events_of result_of fst snd] in Hsub |- *.
      assert (Hg' : In g (owned_games st')).
      { apply Hsub.
        apply (Hmono (Datatypes.S c, ids ++ [title_id_of_line line])).
        destruct (game_in g (owned_games st)) eqn:E.
        - now apply game_in_iff.
        - rewrite owned_games_append. apply in_or_app. right. now left. }
      apply game_in_iff in Hg'. rewrite Hg' in E1'.
      rewrite (bind_run _ _ st' E1').
      now apply (Htail (Datatypes.S c, ids ++ [title_id_of_line line])).
    + rewrite (@bind_raise _ _ _ _ _ _ _ _ _ E1), (@bind_raise _ _ _ _ _ _ _ _ _ E1').
      reflexivity.
  - destruct (PyStr.contains no_branches_marker line).
    + rewrite (bind_run _ _ st E1) in Hsub |- *.
      cbn [state_of events_of result_of fst snd] in Hsub |- *.
      rewrite (bind_run _ _ st' E1'). now apply (Htail (Datatypes.S c, ids)).
    + rewrite (bind_run _ _ st E1) in Hsub |- *.
      cbn [state_of events_of result_of fst snd] in Hsub |- *.
      rewrite (bind_run _ _ st' E1'). now apply (Htail (c, ids)).
Qed.

Lemma removals_run (gc : Catalog) (ids : list str) (st : Plugin) :
  for_each gc (fun item =>
    if negb (PyStr.mem (fst item) ids)
    then remove_game (rosTitleId (snd item))
    else ret tt) st
  = (st, map RemoveGame (ids_not_among gc ids), Ok tt).
Proof.
  unfold ids_not_among.
  induction gc as [|item gc IH]; cbn [for_each filter map]; [reflexivity|].
  destruct (negb (PyStr.mem (fst item) ids)).
  - rewrite (bind_run _ _ st (st1 := st) (ev1 := [RemoveGame (rosTitleId (snd item))])
                      (a := tt) eq_refl).
    rewrite IH. reflexivity.
  - rewrite (bind_run _ _ st (st1 := st) (ev1 := []) (a := tt) eq_refl).
    rewrite IH. reflexivity.
Qed.

(** [get_owned_games] with a session and a log, in terms of its scan. *)
Lemma get_owned_games_with_log gc lines st st1 ev1 r1 :
  scan gc (List.length gc) (rev lines) 0 [] st = (st1, ev1, r1) ->
  get_owned_games gc true (Some lines) st
  = match r1 with
    | Ok locals =>
        (st1,
         Log LDebug "ROCKSTAR_LOG_LOCATION"
             :: ev1 ++ map RemoveGame (ids_not_among gc (snd (fst locals))),
         Ok (Some (owned_games st1)))
    | Raise e => (st1, Log LDebug "ROCKSTAR_LOG_LOCATION" :: ev1, Raise e)
    end.
Proof.
  intros Hscan. unfold get_owned_games. cbn [negb].
  destruct r1 as [locals|e].
  - rewrite (bind_run _ _ st (st1 := st) (ev1 := [Log LDebug "ROCKSTAR_LOG_LOCATION"])
                      (a := tt) eq_refl).
    rewrite (bind_run _ _ st Hscan).
    rewrite (bind_run _ _ st1 (removals_run gc (snd (fst locals)) st1)).
    cbn. now rewrite app_nil_r.
  - rewrite (bind_run _ _ st (st1 := st) (ev1 := [Log LDebug "ROCKSTAR_LOG_LOCATION"])
                      (a := tt) eq_refl).
    rewrite (@bind_raise _ _ _ _ _ _ _ _ _ Hscan). reflexivity.
Qed.

(** The fallback loop over a cache that already holds the game of every key. *)
Lemma all_owned_already (gc : Catalog) (keys : list str) (st : Plugin) :
  (forall k, In k keys ->
             exists g, create_game_from_title_id gc k = Ok g /\ In g (owned_games st)) ->
  for_each keys (fun key =>
    game <- lift (create_game_from_title_id gc key) ;;
    st <- get ;;
    if negb (game_in game (owned_games st)) then
      game' <- lift (create_game_from_title_id gc key) ;;
      modify (owned_games_cache_append game')
    else ret tt) st
  = (st, [], Ok tt).
Proof.
  induction keys as [|k keys IH]; intros H; cbn [for_each]; [reflexivity|].
  destruct (H k (or_introl eq_refl)) as (g & Hg & Hin).
  apply game_in_iff in Hin.
  eapply (FriendsFacts.bind_step _ _ st (ev1 := []) (ev2 := [])).
  - unfold bind, lift, get, ret. rewrite Hg. cbn. rewrite Hin. reflexivity.
  - apply IH. intros k' Hk'. apply H. now right.
Qed.

(** X13.  [get_owned_games] is idempotent: called a second time with the
    same answers (session, log), right after a first call, it leaves the
    owned-games cache as the first call left it, sends the host the same
    notifications, writes the same log records and returns the same value or
    raises the same exception. *)
Theorem get_owned_games_twice
        (gc : Catalog) (auth : bool) (lf : option (list str)) (st : Plugin) :
  let first := get_owned_games gc auth lf st in
  let second := get_owned_games gc auth lf (state_of first) in
  owned_games (state_of second) = owned_games (state_of first) /\
  events_of second = events_of first /\
  result_of second = result_of first.
Proof.
  destruct auth; [destruct lf as [lines|]|]; cbn zeta.
  - destruct (scan gc (List.length gc) (rev lines) 0 [] st) as [[st1 ev1] r1] eqn:Hscan.
    pose proof (scan_absorbed gc (List.length gc) (rev lines) 0 [] st st1) as Habs.
    rewrite Hscan in Habs. cbn [state_of events_of result_of fst snd] in Habs.
    specialize (Habs (fun g H => H)).
    rewrite (@get_owned_games_with_log gc lines st st1 ev1 r1 Hscan).
    destruct r1 as [locals|e]; cbn [state_of fst];
      rewrite (@get_owned_games_with_log gc lines st1 st1 ev1 _ Habs); now repeat split.
  - destruct (assume_all_owned gc (map fst gc) (fun k H => H) st) as (Hr & He & Hin).
    match type of Hr with
    | result_of (?loop) = _ => destruct loop as [[st1 ev1] r1] eqn:Hloop
    end.
    cbn [result_of events_of state_of fst snd] in Hr, He, Hin. subst r1 ev1.
    rewrite (@get_owned_games_without_log gc st st1 Hloop). cbn [state_of fst].
    assert (Hagain : forall k, In k (map fst gc) ->
              exists g, create_game_from_title_id gc k = Ok g /\ In g (owned_games st1)).
    { intros k Hk. destruct (lookup_of_key gc k Hk) as (v & Hv).
      exists (game_of_title v). unfold create_game_from_title_id. rewrite Hv.
      split; [reflexivity|]. apply Hin. right. exists k. split; trivial.
      unfold create_game_from_title_id. now rewrite Hv. }
    rewrite (@get_owned_games_without_log gc st1 st1 (all_owned_already gc _ st1 Hagain)).
    now repeat split.
  - rewrite !get_owned_games_unauthenticated. cbn [state_of events_of result_of fst snd].
    rewrite !owned_games_rebind. now repeat split.
Qed.








(* ------------------------------------------------------------------------- *)
(** ** The owned-games cache holds no game twice *)

Lemma distinct_append (g : Game) (st : Plugin) :
  owned_games_distinct st -> game_in g (owned_games st) = false ->
  owned_games_distinct (owned_games_cache_append g st).
Proof.
  unfold owned_games_distinct. intros Hnd Hnew. rewrite owned_games_append.
  apply NoDup_app; [exact Hnd | repeat constructor; intros [] |].
  intros x Hx [<-|[]]. apply game_in_iff in Hx. congruence.
Qed.

Lemma scan_line_keeps_distinct gc line c ids :
  preserves owned_games_distinct (scan_line gc line c ids).
Proof.
  intros st H. rewrite scan_line_run.
  destruct (is_branch_report line).
  - destruct (create_game_from_title_id gc (title_id_of_line line)) as [g|e];
      cbn [state_of fst]; trivial.
    destruct (game_in g (owned_games st)) eqn:E; trivial. now apply distinct_append.
  - destruct (PyStr.contains no_branches_marker line); exact H.
Qed.

Lemma scan_keeps_distinct gc total frb :
  forall c ids, preserves owned_games_distinct (scan gc total frb c ids).
Proof.
  induction frb as [|line frb IH]; intros c ids; cbn [scan].
  - apply preserves_ret.
  - apply preserves_bind; [apply scan_line_keeps_distinct|]. intros locals.
    apply preserves_if; [apply preserves_ret | apply IH].
Qed.

Lemma append_if_absent_keeps_distinct gc key :
  preserves owned_games_distinct
    (game <- lift (create_game_from_title_id gc key) ;;
     st <- get ;;
     if negb (game_in game (owned_games st)) then
       game' <- lift (create_game_from_title_id gc key) ;;
       modify (owned_games_cache_append game')
     else ret tt).
Proof.
  intros st H. unfold bind, lift, get, modify, ret.
  destruct (create_game_from_title_id gc key) as [g|e]; cbn; trivial.
  destruct (game_in g (owned_games st)) eqn:E; cbn; trivial. now apply distinct_append.
Qed.

Lemma get_owned_games_keeps_distinct gc auth lf :
  preserves owned_games_distinct (get_owned_games gc auth lf).
Proof.
  unfold get_owned_games. apply preserves_if.
  - apply preserves_bind.
    + apply preserves_for_each. intros; apply preserves_emit.
    + intros _. apply preserves_bind; [|intros; apply preserves_ret].
      apply preserves_modify. intros st _. unfold owned_games_distinct.
      rewrite owned_games_rebind. constructor.
  - apply preserves_bind; [apply preserves_log|]. intros _.
    destruct lf as [lines|].
    + apply preserves_bind; [apply scan_keeps_distinct|]. intros locals.
      apply preserves_bind.
      * apply preserves_for_each. intros item _.
        apply preserves_if; [apply preserves_emit | apply preserves_ret].
      * intros _. apply preserves_bind; [apply preserves_get|].
        intros; apply preserves_ret.
    + apply preserves_bind; [apply preserves_log|]. intros _.
      apply preserves_bind.
      * apply preserves_for_each. intros key _. apply append_if_absent_keeps_distinct.
      * intros _. apply preserves_bind; [apply preserves_get|].
        intros; apply preserves_ret.
Qed.

Lemma step_keeps_distinct gc l a :
  owned_games_distinct (plugin l) -> owned_games_distinct (plugin (step gc l a)).
Proof.
  intros H. destruct a as [|i w]; cbn [step].
  - pose proof (tick_keeps_state (plugin l)) as Hk. unfold state_of in Hk.
    destruct (tick (plugin l)) as [[st ev] [cs|e]]; cbn in *; now subst.
  - destruct (nth_error (tasks l) i) as [t|]; [|exact H].
    assert (Hseg : preserves owned_games_distinct (run_segment gc w t)).
    { unfold run_segment. destruct (coroutine t), (phase t); try apply preserves_ret.
      - unfold check_for_new_games.
        apply preserves_bind; [apply preserves_modify; intros st Hst; exact Hst|].
        intros _. apply preserves_bind; [apply preserves_get|]. intros st0.
        apply preserves_bind; [apply get_owned_games_keeps_distinct|]. intros _.
        apply preserves_bind; [apply preserves_get|]. intros st1.
        apply add_new_games_preserves.
      - apply preserves_modify. intros st Hst. exact Hst.
      - apply check_game_statuses_preserves; intros; assumption.
      - apply preserves_modify. intros st Hst. exact Hst. }
    specialize (Hseg (plugin l) H). unfold state_of in Hseg.
    now destruct (run_segment gc w t (plugin l)) as [[st ev] r].
Qed.

(** X15.  From the creation of the plugin on, whatever ticks and passes
    follow and whatever the logs hold (the same title reported many times, in
    one log or in several), the owned-games cache never holds a game twice. *)
Theorem owned_games_are_never_doubled (gc : Catalog) :
  exists st0,
    init gc = Ok st0 /\
    forall actions : list Action,
      NoDup (owned_games (plugin (run gc (start st0) actions))).
Proof.
  destruct (init_returns gc) as (st0 & Hinit & Hempty & _).
  exists st0. split; trivial. intros actions.
  assert (H : owned_games_distinct (plugin (start st0))).
  { unfold owned_games_distinct. cbn [start plugin]. rewrite Hempty. constructor. }
  revert H. generalize (start st0). unfold run.
  induction actions as [|a actions IH]; intros l H; cbn [fold_left]; [exact H|].
  apply IH. now apply step_keeps_distinct.
Qed.

(* ------------------------------------------------------------------------- *)
(** ** Creation of the plugin *)

(** X16.  Over a dict, [create_total_games_cache] does not raise: it lists
    one game per key, in the order of the catalog, made of the host-facing
    id, the friendly name and the license of that key; [__init__] starts from
    it with empty caches, no process tracked and both flags down. *)
Theorem plugin_is_created_over_the_catalog (gc : Catalog) :
  dict_keys_unique gc ->
  create_total_games_cache gc = Ok (map (fun item => game_of_title (snd item)) gc) /\
  exists st0,
    init gc = Ok st0 /\
    total_games_cache st0 = map (fun item => game_of_title (snd item)) gc /\
    owned_games st0 = [] /\ local_games_cache st0 = [] /\ running_games_pids st0 = [] /\
    checking_for_new_games st0 = false /\ updating_game_statuses st0 = false.
Proof.
  intros Hk.
  assert (H : create_total_games_cache gc
              = Ok (map (fun item => game_of_title (snd item)) gc)).
  { unfold create_total_games_cache.
    now rewrite (@total_games_of_catalog gc Hk gc (incl_refl gc) []). }
  split; trivial. unfold init. rewrite H. eexists. repeat split.
Qed.

Lemma plugin_is_created_over_the_catalog_witness :
  create_total_games_cache two_titles
  = Ok (map (fun item => game_of_title (snd item)) two_titles) /\
  exists st0,
    init two_titles = Ok st0 /\
    total_games_cache st0 = map (fun item => game_of_title (snd item)) two_titles /\
    owned_games st0 = [] /\ local_games_cache st0 = [] /\ running_games_pids st0 = [] /\
    checking_for_new_games st0 = false /\ updating_game_statuses st0 = false.
Proof.
  apply (@plugin_is_created_over_the_catalog two_titles).
  unfold dict_keys_unique. all_different.
Defined.

(* ------------------------------------------------------------------------- *)
(** ** The presence pass does not raise *)

Lemma title_id_of_ros_finds (gc : Catalog) (k : str) (v : Title) :
  In (k, v) gc ->
  exists k' v',
    get_game_title_id_from_ros_title_id gc (rosTitleId v) = Some k' /\
    In (k', v') gc /\ rosTitleId v' = rosTitleId v.
Proof.
  induction gc as [|[key value] gc IH]; cbn; [contradiction|].
  intros [H|H].
  - injection H as -> ->. rewrite Z.eqb_refl. exists k, v. repeat split. now left.
  - destruct (Z.eqb (rosTitleId value) (rosTitleId v)) eqn:E.
    + apply Z.eqb_eq in E. exists key, value. repeat split; trivial. now left.
    + destruct (IH H) as (k' & v' & H1 & H2 & H3). exists k', v'.
      repeat split; trivial. now right.
Qed.

Section PresenceNeverRaises.

Variable gc : Catalog.
Variable env : Collaborators.
Hypothesis keys_unique : dict_keys_unique gc.

Lemma local_game_of_returns (st : Plugin) (k : str) (v : Title) :
  In (k, v) gc ->
  exists s, local_game_of gc env (game_of_title v) st
            = (st, [], Ok (mkLocalGame (rosTitleId v) s)).
Proof.
  intros Hin. destruct (title_id_of_ros_finds gc k v Hin) as (k' & v' & Hk' & Hin' & Hid).
  unfold local_game_of. cbn [game_of_title game_id]. rewrite Hk'.
  unfold bind, get, lift, create_local_game_from_title_id.
  rewrite (@lookup_unique gc k' v' keys_unique Hin'). rewrite Hid.
  destruct (get_path_to_game env k'); [|now eexists].
  destruct (match pids_lookup (running_games_pids st) k' with
            | Some entry => check_if_process_exists env (fst entry)
            | None => false
            end); now eexists.
Qed.

Lemma local_games_loop_returns (st : Plugin) :
  forall gc', incl gc' gc ->
  forall acc,
  exists lgs,
    local_games_loop gc env (map (fun item => game_of_title (snd item)) gc') acc st
    = (st, [], Ok (acc ++ lgs)) /\
    map local_game_id lgs = map (fun item : str * Title => rosTitleId (snd item)) gc'.
Proof.
  induction gc' as [|[k v] gc' IH]; intros Hincl acc; cbn [map local_games_loop].
  - exists []. now rewrite app_nil_r.
  - destruct (@local_game_of_returns st k v (Hincl _ (or_introl eq_refl))) as (s & Hs).
    destruct (IH (fun x Hx => Hincl x (or_intror Hx))
                 (acc ++ [mkLocalGame (rosTitleId v) s])) as (lgs & Hloop & Hids).
    exists (mkLocalGame (rosTitleId v) s :: lgs). split.
    + rewrite (bind_run _ _ st Hs). rewrite Hloop. cbn. now rewrite <- app_assoc.
    + cbn. now rewrite Hids.
Qed.

End PresenceNeverRaises.

(** X17.  Over a dict, also one in which several titles have the same
    host-facing id, the presence pass does not raise: [get_local_games]
    returns one record per title of the catalog, in order and with the
    host-facing id of that title, keeps them as the new local-games cache, and
    [check_game_statuses] reaches its sleep. *)
Theorem presence_pass_does_not_raise (gc : Catalog) (env : Collaborators) (st : Plugin) :
  dict_keys_unique gc ->
  create_total_games_cache gc = Ok (total_games_cache st) ->
  (exists lgs,
      result_of (get_local_games gc env st) = Ok lgs /\
      local_games_cache (state_of (get_local_games gc env st)) = lgs /\
      map local_game_id lgs = map (fun item : str * Title => rosTitleId (snd item)) gc) /\
  result_of (check_game_statuses gc env st) = Ok tt.
Proof.
  intros Hk Htotal. unfold create_total_games_cache in Htotal.
  rewrite (@total_games_of_catalog gc Hk gc (incl_refl gc) []) in Htotal.
  injection Htotal as Htotal. cbn [app] in Htotal.
  assert (Hrun : forall s, total_games_cache s = total_games_cache st ->
            exists lgs,
              get_local_games gc env s
              = (set_local_games_cache lgs s, [Log LDebug "ROCKSTAR_INSTALLED_GAMES"],
                 Ok lgs) /\
              map local_game_id lgs
              = map (fun item : str * Title => rosTitleId (snd item)) gc).
  { intros s Hs.
    destruct (@local_games_loop_returns gc env Hk s gc (incl_refl gc) [])
      as (lgs & Hloop & Hids).
    exists lgs. split; trivial. unfold get_local_games.
    rewrite (bind_run _ _ s (st1 := s) (ev1 := []) (a := s) eq_refl).
    rewrite Hs, <- Htotal. rewrite (bind_run _ _ s Hloop). reflexivity. }
  split.
  - destruct (Hrun st eq_refl) as (lgs & -> & Hids). exists lgs. now repeat split.
  - destruct (Hrun (set_updating_game_statuses true st) eq_refl) as (lgs & Hget & _).
    unfold check_game_statuses.
    rewrite (bind_run _ _ st (st1 := set_updating_game_statuses true st)
                      (ev1 := []) (a := tt) eq_refl).
    rewrite (bind_run _ _ _ Hget).
    unfold update_local_game_status. rewrite for_each_emit. reflexivity.
Qed.

Lemma presence_pass_does_not_raise_witness :
  (exists lgs,
      result_of (get_local_games same_id_twice gta5_installed_nothing_alive
                                 plugin_of_same_id_twice) = Ok lgs /\
      local_games_cache (state_of (get_local_games same_id_twice gta5_installed_nothing_alive
                                                   plugin_of_same_id_twice)) = lgs /\
      map local_game_id lgs
      = map (fun item : str * Title => rosTitleId (snd item)) same_id_twice) /\
  result_of (check_game_statuses same_id_twice gta5_installed_nothing_alive
                                 plugin_of_same_id_twice) = Ok tt.
Proof.
  apply (@presence_pass_does_not_raise same_id_twice gta5_installed_nothing_alive
           plugin_of_same_id_twice).
  - unfold dict_keys_unique. all_different.
  - reflexivity.
Defined.

(* ------------------------------------------------------------------------- *)
(** ** A launch and the presence pass after it *)

Lemma pids_lookup_set_same pids title_id entry :
  pids_lookup (pids_set pids title_id entry) title_id = Some entry.
Proof.
  induction pids as [|[key old] pids IH]; cbn.
  - now rewrite eqb_refl.
  - destruct (PyStr.eqb title_id key) eqn:E; cbn; rewrite E; [reflexivity | exact IH].
Qed.

Lemma pids_lookup_set_other pids title_id entry key :
  PyStr.eqb key title_id = false ->
  pids_lookup (pids_set pids title_id entry) key = pids_lookup pids key.
Proof.
  intros Hne. induction pids as [|[key0 old] pids IH]; cbn.
  - now rewrite Hne.
  - destruct (PyStr.eqb title_id key0) eqn:E; cbn.
    + apply eqb_eq in E. subst key0. now rewrite Hne.
    + now rewrite IH.
Qed.

(** [launch_game] when the launch answers a process id. *)
Lemma launch_game_run game_id title_id pid st :
  launch_game game_id title_id (Ok pid) st
  = (set_running_games_pids (pids_set (running_games_pids st) title_id (pid, true)) st,
     Log LDebug "ROCKSTAR_PIDS: "
         :: (if String.eqb pid "-1" then []
             else [UpdateLocalGameStatus (mkLocalGame game_id Running)]),
     Ok tt).
Proof.
  unfold launch_game, bind, lift, modify, log, emit, get, update_local_game_status, ret.
  cbn [running_games_pids set_running_games_pids]. rewrite pids_lookup_set_same.
  cbn [fst]. now destruct (String.eqb pid "-1").
Qed.

(** X18.  A launch that raises changes nothing and notifies nobody.  A launch
    that answers a process id makes it the one tracked process of the title
    and, unless the id is "-1", notifies the host of [Running] at once,
    without a look at the install path or the process table.  The presence
    pass that follows reports the launched title as running exactly when it
    has an install path and the process table knows the id (the id "-1"
    included), and every other title as it would have without the launch. *)
Theorem launch_then_presence_pass
        (gc : Catalog) (env : Collaborators) (st : Plugin)
        (title_id : str) (value : Title) (launched : result Handle) :
  dict_keys_unique gc ->
  ros_title_ids_unique gc ->
  create_total_games_cache gc = Ok (total_games_cache st) ->
  In (title_id, value) gc ->
  let launch := launch_game (rosTitleId value) title_id launched st in
  match launched with
  | Raise e => launch = (st, [], Raise e)
  | Ok pid =>
      result_of launch = Ok tt /\
      pids_lookup (running_games_pids (state_of launch)) title_id = Some (pid, true) /\
      local_state_changes (events_of launch)
      = (if String.eqb pid "-1" then [] else [mkLocalGame (rosTitleId value) Running]) /\
      result_of (get_local_games gc env (state_of launch))
      = Ok (map (fun item : str * Title =>
                   mkLocalGame (rosTitleId (snd item))
                               (presence_after_launch env (running_games_pids st)
                                                      title_id pid (fst item)))
                gc)
  end.
Proof.
  intros Hk Hi Htotal Hin launch. subst launch.
  destruct launched as [pid|e]; [|reflexivity].
  rewrite launch_game_run. cbn [result_of events_of state_of fst snd].
  repeat split.
  - cbn [running_games_pids set_running_games_pids]. apply pids_lookup_set_same.
  - cbn [local_state_changes flat_map app].
    now destruct (String.eqb pid "-1").
  - rewrite (@get_local_games_of_catalog gc env Hk Hi
               (set_running_games_pids
                  (pids_set (running_games_pids st) title_id (pid, true)) st) Htotal).
    cbn [result_of snd running_games_pids set_running_games_pids].
    f_equal. unfold spec_local_games. apply map_ext. intros [key v]. cbn [fst snd].
    f_equal. unfold presence_after_launch, spec_presence_state.
    destruct (PyStr.eqb key title_id) eqn:E.
    + apply eqb_eq in E. subst key. now rewrite pids_lookup_set_same.
    + now rewrite (@pids_lookup_set_other (running_games_pids st) title_id (pid, true) key E).
Qed.

Lemma launch_then_presence_pass_witness :
  let launch := launch_game 11 (PyStr.lit "gta5") (Ok "4242"%string) fresh_plugin in
  result_of launch = Ok tt /\
  pids_lookup (running_games_pids (state_of launch)) (PyStr.lit "gta5")
  = Some ("4242"%string, true) /\
  local_state_changes (events_of launch)
  = (if String.eqb "4242" "-1" then [] else [mkLocalGame 11 Running]) /\
  result_of (get_local_games two_titles gta5_installed_all_alive (state_of launch))
  = Ok (map (fun item : str * Title =>
               mkLocalGame (rosTitleId (snd item))
                           (presence_after_launch gta5_installed_all_alive
                                                  (running_games_pids fresh_plugin)
                                                  (PyStr.lit "gta5") "4242"%string
                                                  (fst item)))
            two_titles).
Proof.
  apply (@launch_then_presence_pass two_titles gta5_installed_all_alive fresh_plugin
           (PyStr.lit "gta5") (mkTitle 11 "Grand Theft Auto V" "SinglePurchase")
           (Ok "4242"%string)).
  - unfold dict_keys_unique. all_different.
  - unfold ros_title_ids_unique. all_different.
  - reflexivity.
  - left. reflexivity.
Defined.
